(** * LRUMap: a doubly linked list-based least-recently-used cache

    Shallow embedding of [LRUMap.ts] and [Entry.ts].

    JavaScript objects are mutable and shared by reference: the cache
    fields [oldest] and [newest], the values of [keymap] and the
    [NEWER]/[OLDER] fields of entries all designate the same [Entry]
    objects.  The embedding therefore keeps an explicit object store: a
    reference is an index into a list of [Entry] records, [new Entry]
    appends a record to the store, and a field assignment
    [e[NEWER] = x] updates the record in place with [alter].

    Numbers are the integer-valued JavaScript numbers, as [Z]; the one
    other constant of the source, [Number.MAX_VALUE], is the constructor
    [MAX_VALUE] of [jsnum].  The [Map] of the source is a [gmap] (only
    [get], [set], [delete], [clear], [has] and [size] are used, never
    its iteration order), an iterable of pairs is a finite list, and an
    optional argument or result is an [option]. *)

From stdpp Require Import gmap strings list fin_maps pretty.
From Stdlib Require Import ZArith Lia.

#[local] Set Warnings "-clear-no-such-hyp".

Open Scope Z_scope.

(** References to [Entry] objects. *)
Abbreviation ref := nat (only parsing).

(** The local counter [limit] of [assign]: either an integer or
    [Number.MAX_VALUE].  In double precision
    [Number.MAX_VALUE - 1 === Number.MAX_VALUE], so decrementing
    [MAX_VALUE] leaves it unchanged, and it is never [=== 0]. *)
Inductive jsnum :=
  | Num (z : Z)
  | MAX_VALUE.

Definition jsnum_dec (n : jsnum) : jsnum :=
  match n with
  | Num z => Num (z - 1)
  | MAX_VALUE => MAX_VALUE
  end.

Definition jsnum_is_zero (n : jsnum) : bool :=
  match n with
  | Num z => z =? 0
  | MAX_VALUE => false
  end.

(** [this.limit || Number.MAX_VALUE] *)
Definition or_MAX_VALUE (z : Z) : jsnum :=
  if z =? 0 then MAX_VALUE else Num z.

Section LRUMap.

Context {K V : Type} `{Countable K}.

(** ** Entry.ts *)

Record Entry := mkEntry {
  key : K;
  value : V;
  newer : option ref;   (* [NEWER] *)
  older : option ref;   (* [OLDER] *)
}.

(** ** The fields of an [LRUMap], with the store of the entries it
    has created. *)

Record LRUMap := mkLRUMap {
  size : Z;
  limit : Z;
  oldest : option ref;
  newest : option ref;
  keymap : gmap K ref;
  store : list Entry;
}.

(** What a call does: it returns, or it throws with a message.  In both
    cases the object is left in some state. *)
Inductive outcome :=
  | Returned (s : LRUMap)
  | Thrown (msg : string) (s : LRUMap).

Definition with_size (z : Z) (s : LRUMap) : LRUMap :=
  mkLRUMap z (limit s) (oldest s) (newest s) (keymap s) (store s).

Definition with_limit (z : Z) (s : LRUMap) : LRUMap :=
  mkLRUMap (size s) z (oldest s) (newest s) (keymap s) (store s).

Definition with_oldest (o : option ref) (s : LRUMap) : LRUMap :=
  mkLRUMap (size s) (limit s) o (newest s) (keymap s) (store s).

Definition with_newest (o : option ref) (s : LRUMap) : LRUMap :=
  mkLRUMap (size s) (limit s) (oldest s) o (keymap s) (store s).

Definition with_keymap (m : gmap K ref) (s : LRUMap) : LRUMap :=
  mkLRUMap (size s) (limit s) (oldest s) (newest s) m (store s).

Definition with_store (h : list Entry) (s : LRUMap) : LRUMap :=
  mkLRUMap (size s) (limit s) (oldest s) (newest s) (keymap s) h.

(** Field reads [e[NEWER]], [e[OLDER]] and writes
    [e[NEWER] = x], [e[OLDER] = x], [e.value = v]. *)

Definition NEWER (e : ref) (s : LRUMap) : option ref :=
  store s !! e ≫= newer.

Definition OLDER (e : ref) (s : LRUMap) : option ref :=
  store s !! e ≫= older.

Definition put_newer (x : option ref) (e : Entry) : Entry :=
  mkEntry (key e) (value e) x (older e).

Definition put_older (x : option ref) (e : Entry) : Entry :=
  mkEntry (key e) (value e) (newer e) x.

Definition put_value (v : V) (e : Entry) : Entry :=
  mkEntry (key e) v (newer e) (older e).

Definition set_NEWER (e : ref) (x : option ref) (s : LRUMap) : LRUMap :=
  with_store (alter (put_newer x) e (store s)) s.

Definition set_OLDER (e : ref) (x : option ref) (s : LRUMap) : LRUMap :=
  with_store (alter (put_older x) e (store s)) s.

Definition set_value (e : ref) (v : V) (s : LRUMap) : LRUMap :=
  with_store (alter (put_value v) e (store s)) s.

(** [new Entry(key, value)]: a fresh object, both links undefined. *)
Definition new_Entry (k : K) (v : V) (s : LRUMap) : ref * LRUMap :=
  (length (store s), with_store (store s ++ [mkEntry k v None None]) s).

(** ** LRUMap._markEntryAsUsed *)

Definition _markEntryAsUsed (entry : ref) (s : LRUMap) : LRUMap :=
  if decide (newest s = Some entry) then s
  else
    let s :=
      match NEWER entry s with
      | Some n =>
          let s :=
            if decide (oldest s = Some entry)
            then with_oldest (Some n) s else s in
          set_OLDER n (OLDER entry s) s
      | None => s
      end in
    let s :=
      match OLDER entry s with
      | Some o => set_NEWER o (NEWER entry s) s
      | None => s
      end in
    let s := set_NEWER entry None s in
    let s := set_OLDER entry (newest s) s in
    let s :=
      match newest s with
      | Some n => set_NEWER n (Some entry) s
      | None => s
      end in
    with_newest (Some entry) s.

(** ** LRUMap.get *)

Definition get (k : K) (s : LRUMap) : option V * LRUMap :=
  match keymap s !! k with
  | None => (None, s)
  | Some entry =>
      let s := _markEntryAsUsed entry s in
      (value <$> store s !! entry, s)
  end.

(** ** LRUMap.shift

    A reference always designates an object of the store; the branch
    for a reference outside the store is there to make the function
    total and is never taken from a state built by the operations. *)

Definition shift (s : LRUMap) : option (K * V) * LRUMap :=
  match oldest s with
  | None => (None, s)
  | Some entry =>
      let s :=
        match NEWER entry s with
        | Some n => set_OLDER n None (with_oldest (Some n) s)
        | None => with_newest None (with_oldest None s)
        end in
      let s := set_OLDER entry None s in
      let s := set_NEWER entry None s in
      match store s !! entry with
      | None => (None, s)
      | Some e =>
          let s := with_keymap (delete (key e) (keymap s)) s in
          let s := with_size (size s - 1) s in
          (Some (key e, value e), s)
      end
  end.

(** ** LRUMap.set

    [set'] also gives what the inner call [this.shift()] returned, which
    the source drops; [set] is the method itself. *)

Definition set' (k : K) (v : V) (s : LRUMap) : option (K * V) * LRUMap :=
  match keymap s !! k with
  | Some entry =>
      let s := set_value entry v s in
      let s := _markEntryAsUsed entry s in
      (None, s)
  | None =>
      let '(entry, s) := new_Entry k v s in
      let s := with_keymap (<[k := entry]> (keymap s)) s in
      let s :=
        match newest s with
        | Some n => set_OLDER entry (newest s) (set_NEWER n (Some entry) s)
        | None => with_oldest (Some entry) s
        end in
      let s := with_newest (Some entry) s in
      let s := with_size (size s + 1) s in
      if decide (size s > limit s) then shift s else (None, s)
  end.

Definition set (k : K) (v : V) (s : LRUMap) : LRUMap := (set' k v s).2.

(** ** LRUMap.has, LRUMap.find *)

Definition has (k : K) (s : LRUMap) : bool :=
  bool_decide (is_Some (keymap s !! k)).

Definition find (k : K) (s : LRUMap) : option V :=
  match keymap s !! k with
  | Some e => value <$> store s !! e
  | None => None
  end.

(** ** LRUMap.delete

    As in [shift], the branch for a reference outside the store is never
    taken from a state built by the operations.  In each of the first
    three cases the two assignments of the source read [entry[NEWER]]
    and [entry[OLDER]] again after the first write; that write leaves
    both fields of [entry] as they were, also when a neighbour is
    [entry] itself, so the values read by the [match] are used. *)

Definition delete_ (k : K) (s : LRUMap) : option V * LRUMap :=
  match keymap s !! k with
  | None => (None, s)
  | Some entry =>
      match store s !! entry with
      | None => (None, s)
      | Some e =>
          let s := with_keymap (delete (key e) (keymap s)) s in
          let s :=
            match NEWER entry s, OLDER entry s with
            | Some n, Some o =>
                set_OLDER n (Some o) (set_NEWER o (Some n) s)
            | Some n, None =>
                with_oldest (Some n) (set_OLDER n None s)
            | None, Some o =>
                with_newest (Some o) (set_NEWER o None s)
            | None, None =>
                with_newest None (with_oldest None s)
            end in
          let s := with_size (size s - 1) s in
          (value <$> store s !! entry, s)
      end
  end.

(** ** LRUMap.clear *)

Definition clear (s : LRUMap) : LRUMap :=
  let s := with_newest None s in
  let s := with_oldest None s in
  let s := with_size 0 s in
  with_keymap ∅ s.

(** ** LRUMap.assign

    The iterable is a finite list of pairs.  [assign_loop] is the [for]
    loop; its arguments [entry] and [lim] are the local variables
    [entry] and [limit] of the method. *)

Fixpoint assign_loop (it : list (K * V)) (entry : option ref) (lim : jsnum)
    (s : LRUMap) : option (option ref) * LRUMap :=
  match it with
  | [] => (Some entry, s)
  | (k, v) :: it =>
      let '(e, s) := new_Entry k v s in
      let s := with_keymap (<[k := e]> (keymap s)) s in
      let s :=
        match entry with
        | None => with_oldest (Some e) s
        | Some p => set_OLDER e (Some p) (set_NEWER p (Some e) s)
        end in
      if jsnum_is_zero lim then (None, s)
      else assign_loop it (Some e) (jsnum_dec lim) s
  end.

Definition assign (entries : list (K * V)) (s : LRUMap) : outcome :=
  let lim := or_MAX_VALUE (limit s) in
  let s := with_keymap ∅ s in
  match assign_loop entries None lim s with
  | (None, s) => Thrown "overflow" s
  | (Some entry, s) =>
      let s := with_newest entry s in
      let s := with_size (Z.of_nat (base.size (keymap s))) s in
      Returned s
  end.

(** ** The constructor

    An omitted argument is [None]. *)

Definition constructor (lim : option Z) (entries : option (list (K * V)))
    : outcome :=
  let lim := match lim with Some l => l | None => 0 end in
  let s := mkLRUMap 0 lim None None ∅ [] in
  match entries with
  | None => Returned s
  | Some es =>
      match assign es s with
      | Thrown msg s => Thrown msg s
      | Returned s =>
          Returned (if decide (limit s < 1) then with_limit (size s) s else s)
      end
  end.

(** ** LRUMap.toJSON

    The [while (entry)] loop follows [NEWER] from [oldest]; [fuel] bounds
    the number of iterations ([None]: the bound was reached). *)

Fixpoint walk (fuel : nat) (h : list Entry) (entry : option ref)
    : option (list (K * V)) :=
  match entry with
  | None => Some []
  | Some r =>
      match fuel with
      | O => None
      | S fuel =>
          match h !! r with
          | None => Some []
          | Some e => cons (key e, value e) <$> walk fuel h (newer e)
          end
      end
  end.

Definition toJSON (s : LRUMap) : option (list (K * V)) :=
  walk (length (store s)) (store s) (oldest s).

(** The state of [set] on a new key when it reaches the test
    [this.size > this.limit]. *)
Definition appended (k : K) (v : V) (s : LRUMap) : LRUMap :=
  let '(entry, s) := new_Entry k v s in
  let s := with_keymap (<[k := entry]> (keymap s)) s in
  let s :=
    match newest s with
    | Some n => set_OLDER entry (newest s) (set_NEWER n (Some entry) s)
    | None => with_oldest (Some entry) s
    end in
  let s := with_newest (Some entry) s in
  with_size (size s + 1) s.

(** ** Sequences of [set] calls

    [run_sets ops s t] performs the calls [set(k, v)] of [ops] in order
    and counts in [t] how many of them created an entry (the key was not
    in the index when the call was made) and how many evicted one (the
    inner [this.shift()] returned a pair). *)

Record tally := mkTally {
  created : nat;
  evicted : nat;
}.

Fixpoint run_sets (ops : list (K * V)) (s : LRUMap) (t : tally)
    : LRUMap * tally :=
  match ops with
  | [] => (s, t)
  | (k, v) :: ops =>
      let c := if has k s then O else 1%nat in
      let '(ev, s') := set' k v s in
      let e := match ev with Some _ => 1%nat | None => O end in
      run_sets ops s' (mkTally (created t + c) (evicted t + e))
  end.

(** The number of distinct keys among the pairs of [ops]. *)
Definition distinct_keys (ops : list (K * V)) : nat :=
  length (remove_dups ops.*1).

(** The number of pairs the loop of [assign] takes from the iterable
    when the counter starts at [lim]: all of them, or [z + 1] when the
    counter [z] reaches zero before the end. *)
Definition consumed (lim : jsnum) (it : list (K * V)) : nat :=
  match lim with
  | Num z =>
      if decide (0 ≤ z < Z.of_nat (length it)) then S (Z.to_nat z)
      else length it
  | MAX_VALUE => length it
  end.

(** ** The representation invariant

    [links h r] and [kv h r] read the two links and the key/value pair of
    the object [r] designates in the store [h]. *)

Definition links (h : list Entry) (r : ref) : option (option ref * option ref) :=
  (λ e, (older e, newer e)) <$> h !! r.

Definition kv (h : list Entry) (r : ref) : option (K * V) :=
  (λ e, (key e, value e)) <$> h !! r.

Definition hd_or (l : list ref) (d : option ref) : option ref :=
  match l with
  | [] => d
  | r :: _ => Some r
  end.

Definition last_or (l : list ref) (d : option ref) : option ref :=
  match last l with
  | Some r => Some r
  | None => d
  end.

(** [dseg h prev l nxt]: the objects of [l] are chained in this order,
    [OLDER] of the first one being [prev] and [NEWER] of the last one
    being [nxt]. *)
Fixpoint dseg (h : list Entry) (prev : option ref) (l : list ref)
    (nxt : option ref) : Prop :=
  match l with
  | [] => True
  | r :: l' => links h r = Some (prev, hd_or l' nxt) ∧ dseg h (Some r) l' nxt
  end.

(** [Repr s m]: the cache [s] holds the entries [m], oldest first, each
    with the reference of its [Entry] object.  This is the structural
    invariant of the data model: the list and the index hold the same
    entries, the chain from [oldest] through [NEWER] visits them in
    order and ends at [newest], and [size] counts them. *)
Record Repr (s : LRUMap) (m : list (ref * (K * V))) : Prop := mkRepr {
  repr_NoDup : NoDup m.*1;
  repr_oldest : oldest s = head m.*1;
  repr_newest : newest s = last m.*1;
  repr_links : dseg (store s) None m.*1 None;
  repr_kv : Forall (λ x, kv (store s) x.1 = Some x.2) m;
  repr_size : size s = Z.of_nat (length m);
  repr_keymap : ∀ k r, keymap s !! k = Some r ↔ ∃ v, (r, (k, v)) ∈ m;
}.

(** The state inside the loop of [assign] once the entries [m] have been
    created, [entry] being the last of them, with the assignments to
    [newest] and [size] that follow the loop done ahead. *)
Definition linked_state (s : LRUMap) (entry : option ref)
    (m : list (ref * (K * V))) : LRUMap :=
  with_newest entry
    (with_size (Z.of_nat (length m)) (with_oldest (head m.*1) s)).

(** ** KeyIterator.ts, ValueIterator.ts, EntryIterator.ts

    An iterator object has one field, [entry]; [keys()], [values()] and
    [[Symbol.iterator]()] (to which [entries()] leads, as it returns the
    map itself) construct one from [this.oldest].  [next] reads the
    entry objects, so it takes the state they are in when it is called.
    A result is [{done: false, value: x}] or
    [{done: true, value: undefined}]. *)

Inductive IteratorResult (A : Type) :=
  | Value (a : A)
  | Done.

Definition keys (s : LRUMap) : option ref := oldest s.
Definition values (s : LRUMap) : option ref := oldest s.
Definition entries (s : LRUMap) : option ref := oldest s.

Definition KeyIterator_next (s : LRUMap) (entry : option ref)
    : IteratorResult K * option ref :=
  match entry with
  | Some ent =>
      match store s !! ent with
      | Some e => (Value K (key e), newer e)
      | None => (Done K, None)
      end
  | None => (Done K, None)
  end.

Definition ValueIterator_next (s : LRUMap) (entry : option ref)
    : IteratorResult V * option ref :=
  match entry with
  | Some ent =>
      match store s !! ent with
      | Some e => (Value V (value e), newer e)
      | None => (Done V, None)
      end
  | None => (Done V, None)
  end.

Definition EntryIterator_next (s : LRUMap) (entry : option ref)
    : IteratorResult (K * V) * option ref :=
  match entry with
  | Some ent =>
      match store s !! ent with
      | Some e => (Value (K * V) (key e, value e), newer e)
      | None => (Done (K * V), None)
      end
  | None => (Done (K * V), None)
  end.

(** A consumer of an iterator, such as [for ... of]: it calls [next]
    until the result is done and collects the values ([None]: [fuel]
    calls were not enough). *)
Fixpoint drain {A : Type} (next : option ref → IteratorResult A * option ref)
    (fuel : nat) (entry : option ref) : option (list A) :=
  match fuel with
  | O => None
  | S fuel =>
      match next entry with
      | (Done _, _) => Some []
      | (Value _ a, entry) => cons a <$> drain next fuel entry
      end
  end.

(** ** LRUMap.forEach

    The callback [fun] receives the value, the key and the map; it may
    change the map, and it acts on whatever else it closes over, here a
    value of type [A].  [entry[NEWER]] is read after the call.  [fuel]
    bounds the number of iterations of the [while] loop. *)

Fixpoint forEach_loop {A : Type} (fuel : nat)
    (fun_ : V → K → LRUMap → A → LRUMap * A)
    (entry : option ref) (s : LRUMap) (a : A) : option (LRUMap * A) :=
  match entry with
  | None => Some (s, a)
  | Some r =>
      match fuel with
      | O => None
      | S fuel =>
          match store s !! r with
          | None => Some (s, a)
          | Some e =>
              let '(s, a) := fun_ (value e) (key e) s a in
              forEach_loop fuel fun_ (NEWER r s) s a
          end
      end
  end.

Definition forEach {A : Type} (fuel : nat)
    (fun_ : V → K → LRUMap → A → LRUMap * A) (s : LRUMap) (a : A)
    : option (LRUMap * A) :=
  forEach_loop fuel fun_ (oldest s) s a.

(** ** LRUMap.toString

    [String_] is [String(key)] and [to_string] the conversion of a value
    that [+] applies. *)

Fixpoint toString_loop (String_ : K → string) (to_string : V → string)
    (fuel : nat) (h : list Entry) (entry : option ref) (acc : string)
    : option string :=
  match entry with
  | None => Some acc
  | Some r =>
      match fuel with
      | O => None
      | S fuel =>
          match h !! r with
          | None => Some acc
          | Some e =>
              let acc := acc +:+ ((String_ (key e) +:+ ":") +:+ to_string (value e)) in
              let entry := newer e in
              let acc :=
                match entry with
                | Some _ => acc +:+ " < "
                | None => acc
                end in
              toString_loop String_ to_string fuel h entry acc
          end
      end
  end.

Definition toString (String_ : K → string) (to_string : V → string)
    (s : LRUMap) : option string :=
  toString_loop String_ to_string (length (store s)) (store s) (oldest s) "".

(** ** Calls of the public methods, and sequences of them *)

Inductive op :=
  | op_set (k : K) (v : V)
  | op_get (k : K)
  | op_find (k : K)
  | op_has (k : K)
  | op_delete (k : K)
  | op_shift
  | op_clear.

Inductive answer :=
  | ans_this
  | ans_value (o : option V)
  | ans_bool (b : bool)
  | ans_pair (o : option (K * V))
  | ans_void.

Definition exec (o : op) (s : LRUMap) : answer * LRUMap :=
  match o with
  | op_set k v => (ans_this, set k v s)
  | op_get k => (ans_value (get k s).1, (get k s).2)
  | op_find k => (ans_value (find k s), s)
  | op_has k => (ans_bool (has k s), s)
  | op_delete k => (ans_value (delete_ k s).1, (delete_ k s).2)
  | op_shift => (ans_pair (shift s).1, (shift s).2)
  | op_clear => (ans_void, clear s)
  end.

Fixpoint run (ops : list op) (s : LRUMap) : list answer * LRUMap :=
  match ops with
  | [] => ([], s)
  | o :: ops =>
      let '(a, s) := exec o s in
      let '(l, s) := run ops s in
      (a :: l, s)
  end.

(** ** The list model

    What the calls do to the sequence of pairs, oldest first, of a cache
    of capacity [lim]: a lookup that counts as a use moves the pair to
    the end, a new pair goes to the end, and the first pair goes when
    the capacity is exceeded. *)

Fixpoint model_find (k : K) (l : list (K * V)) : option V :=
  match l with
  | [] => None
  | (k', v) :: l => if decide (k' = k) then Some v else model_find k l
  end.

Fixpoint model_remove (k : K) (l : list (K * V)) : list (K * V) :=
  match l with
  | [] => []
  | (k', v) :: l =>
      if decide (k' = k) then model_remove k l
      else (k', v) :: model_remove k l
  end.

Definition model_set (lim : Z) (k : K) (v : V) (l : list (K * V))
    : list (K * V) :=
  match model_find k l with
  | Some _ => model_remove k l ++ [(k, v)]
  | None =>
      if decide (Z.of_nat (length l) + 1 > lim) then tail (l ++ [(k, v)])
      else l ++ [(k, v)]
  end.

Definition model_get (k : K) (l : list (K * V)) : list (K * V) :=
  match model_find k l with
  | Some v => model_remove k l ++ [(k, v)]
  | None => l
  end.

Definition model_exec (lim : Z) (o : op) (l : list (K * V))
    : answer * list (K * V) :=
  match o with
  | op_set k v => (ans_this, model_set lim k v l)
  | op_get k => (ans_value (model_find k l), model_get k l)
  | op_find k => (ans_value (model_find k l), l)
  | op_has k => (ans_bool (bool_decide (is_Some (model_find k l))), l)
  | op_delete k => (ans_value (model_find k l), model_remove k l)
  | op_shift => (ans_pair (head l), tail l)
  | op_clear => (ans_void, [])
  end.

Fixpoint model_run (lim : Z) (ops : list op) (l : list (K * V))
    : list answer * list (K * V) :=
  match ops with
  | [] => ([], l)
  | o :: ops =>
      let '(a, l) := model_exec lim o l in
      let '(r, l) := model_run lim ops l in
      (a :: r, l)
  end.

(** The calls that remove entries on request. *)
Definition removes (o : op) : bool :=
  match o with
  | op_delete _ | op_shift | op_clear => true
  | _ => false
  end.

(** The number of pairs that follow the pair of [k] in [l]. *)
Fixpoint model_after (k : K) (l : list (K * V)) : nat :=
  match l with
  | [] => O
  | (k', _) :: l => if decide (k' = k) then length l else model_after k l
  end.

End LRUMap.

Arguments Entry : clear implicits.
Arguments LRUMap K V {_ _}.
Arguments outcome K V {_ _}.
Arguments op : clear implicits.
Arguments answer : clear implicits.

(** ** The caches of the scenarios

    String keys and integer values, as in the test suite. *)

Definition state_of {K V} `{Countable K} (o : outcome K V) : LRUMap K V :=
  match o with
  | Returned s => s
  | Thrown _ s => s
  end.

(** The message of the error thrown, if any. *)
Definition thrown {K V} `{Countable K} (o : outcome K V) : option string :=
  match o with
  | Returned _ => None
  | Thrown msg _ => Some msg
  end.

(** [new LRUMap(lim)] *)
Definition new_cache (lim : Z) : LRUMap string Z :=
  state_of (constructor (Some lim) None).

(** Capacity 3; set a=1, b=2, c=3; get(a). *)
Definition scenario_abc : LRUMap string Z :=
  set "c" 3 (set "b" 2 (set "a" 1 (new_cache 3))).

Definition scenario_abc_get_a : LRUMap string Z :=
  (get "a" scenario_abc).2.

(** [new LRUMap(4, [[adam, 29], [john, 26], [angela, 24], [bob, 48]])] *)
Definition four_pairs : list (string * Z) :=
  [("adam", 29); ("john", 26); ("angela", 24); ("bob", 48)].

Definition five_pairs : list (string * Z) :=
  four_pairs ++ [("ken", 30)].

Definition scenario_four : LRUMap string Z :=
  state_of (constructor (Some 4) (Some four_pairs)).

(** * Proofs *)

(** Projections of a state after field assignments. *)
Ltac fields :=
  cbn [size limit oldest newest keymap store with_size with_limit
       with_oldest with_newest with_keymap with_store
       set_NEWER set_OLDER set_value fst snd].

Section Proofs.

Context {K V : Type} `{Countable K}.

Implicit Types (s : LRUMap K V) (h : list (Entry K V)) (m : list (ref * (K * V))).
Implicit Types (l : list ref) (r : ref) (k : K) (v : V) (it : list (K * V)).

(** ** Reading the store after a write *)

Lemma links_alter_newer h r x r' :
  links (alter (put_newer x) r h) r' =
  if decide (r = r') then (λ p, (p.1, x)) <$> links h r' else links h r'.
Proof.
  unfold links. rewrite list_lookup_alter. case_decide; subst; [|done].
  by destruct (h !! r').
Qed.

Lemma links_alter_older h r x r' :
  links (alter (put_older x) r h) r' =
  if decide (r = r') then (λ p, (x, p.2)) <$> links h r' else links h r'.
Proof.
  unfold links. rewrite list_lookup_alter. case_decide; subst; [|done].
  by destruct (h !! r').
Qed.

Lemma links_alter_value h r v r' :
  links (alter (put_value v) r h) r' = links h r'.
Proof.
  unfold links. rewrite list_lookup_alter. case_decide; subst; [|done].
  by destruct (h !! r').
Qed.

Lemma kv_alter_newer h r x r' : kv (alter (put_newer x) r h) r' = kv h r'.
Proof.
  unfold kv. rewrite list_lookup_alter. case_decide; subst; [|done].
  by destruct (h !! r').
Qed.

Lemma kv_alter_older h r x r' : kv (alter (put_older x) r h) r' = kv h r'.
Proof.
  unfold kv. rewrite list_lookup_alter. case_decide; subst; [|done].
  by destruct (h !! r').
Qed.

Lemma kv_alter_value h r v r' :
  kv (alter (put_value v) r h) r' =
  if decide (r = r') then (λ p, (p.1, v)) <$> kv h r' else kv h r'.
Proof.
  unfold kv. rewrite list_lookup_alter. case_decide; subst; [|done].
  by destruct (h !! r').
Qed.

Lemma links_lt h r p : links h r = Some p → (r < length h)%nat.
Proof.
  unfold links. intros Hl. apply lookup_lt_is_Some.
  destruct (h !! r); [eauto | by simplify_eq/=].
Qed.

Lemma links_snoc h e r :
  links (h ++ [e]) r =
  if decide (r = length h) then Some (older e, newer e) else links h r.
Proof.
  unfold links. case_decide as Hr.
  - subst. by rewrite list_lookup_middle.
  - destruct (decide (r < length h)%nat).
    + by rewrite lookup_app_l.
    + rewrite !lookup_ge_None_2; [done | lia |].
      rewrite length_app. simpl. lia.
Qed.

Lemma kv_snoc h e r :
  kv (h ++ [e]) r =
  if decide (r = length h) then Some (key e, value e) else kv h r.
Proof.
  unfold kv. case_decide as Hr.
  - subst. by rewrite list_lookup_middle.
  - destruct (decide (r < length h)%nat).
    + by rewrite lookup_app_l.
    + rewrite !lookup_ge_None_2; [done | lia |].
      rewrite length_app. simpl. lia.
Qed.

Lemma NEWER_links s r o n : links (store s) r = Some (o, n) → NEWER r s = n.
Proof.
  unfold links, NEWER. destruct (store s !! r); simpl; [|done]. congruence.
Qed.

Lemma OLDER_links s r o n : links (store s) r = Some (o, n) → OLDER r s = o.
Proof.
  unfold links, OLDER. destruct (store s !! r); simpl; [|done]. congruence.
Qed.

(** ** Segments *)

Lemma dseg_frame h h' p l n :
  (∀ r, r ∈ l → links h' r = links h r) → dseg h p l n → dseg h' p l n.
Proof.
  revert p. induction l as [|r l IH]; intros p Hf; [done|].
  simpl. intros [Hr Hl]. split.
  - rewrite Hf; [done | set_solver].
  - apply IH; [|done]. intros r' Hr'. apply Hf. set_solver.
Qed.

Lemma hd_or_app l1 l2 d : hd_or (l1 ++ l2) d = hd_or l1 (hd_or l2 d).
Proof. by destruct l1. Qed.

Lemma last_or_cons r l d : last_or (r :: l) d = last_or l (Some r).
Proof.
  unfold last_or. rewrite last_cons. by destruct (last l).
Qed.

Lemma last_or_snoc l r d : last_or (l ++ [r]) d = Some r.
Proof. unfold last_or. by rewrite last_snoc. Qed.

Lemma dseg_app h p l1 l2 n :
  dseg h p (l1 ++ l2) n ↔
  dseg h p l1 (hd_or l2 n) ∧ dseg h (last_or l1 p) l2 n.
Proof.
  revert p. induction l1 as [|r l1 IH]; intros p; simpl.
  - unfold last_or. simpl. tauto.
  - rewrite IH, hd_or_app, last_or_cons. tauto.
Qed.

Lemma dseg_elem h p l n r :
  dseg h p l n → r ∈ l → is_Some (links h r).
Proof.
  revert p. induction l as [|r' l IH]; intros p; simpl; [set_solver|].
  intros [Hr Hl] [->|Hin]%elem_of_cons; eauto.
Qed.

Lemma dseg_lt h p l n r : dseg h p l n → r ∈ l → (r < length h)%nat.
Proof.
  intros Hd Hr. destruct (dseg_elem _ _ _ _ _ Hd Hr) as [x Hx].
  by eapply links_lt.
Qed.

(** Redirecting the [NEWER] link of the last object, or the [OLDER] link
    of the first one. *)
Lemma dseg_set_nxt h p l r n n' :
  r ∉ l → dseg h p (l ++ [r]) n →
  dseg (alter (put_newer n') r h) p (l ++ [r]) n'.
Proof.
  intros Hr [H1 H2]%dseg_app. apply dseg_app. split.
  - eapply dseg_frame; [|exact H1]. intros r' Hr'.
    rewrite links_alter_newer. case_decide; [by subst | done].
  - simpl in *. destruct H2 as [H2 _]. split; [|done].
    rewrite links_alter_newer, decide_True, H2 by done. done.
Qed.

Lemma dseg_set_prev h p p' l r n :
  r ∉ l → dseg h p (r :: l) n →
  dseg (alter (put_older p') r h) p' (r :: l) n.
Proof.
  intros Hr [H1 H2]. split.
  - rewrite links_alter_older, decide_True, H1 by done. done.
  - eapply dseg_frame; [|exact H2]. intros r' Hr'.
    rewrite links_alter_older. case_decide; [by subst | done].
Qed.

(** ** Consequences of the invariant *)

Lemma Repr_kv s m r k v : Repr s m → (r, (k, v)) ∈ m → kv (store s) r = Some (k, v).
Proof.
  intros HR Hin. pose proof (repr_kv _ _ HR) as Hkv.
  rewrite Forall_forall in Hkv. exact (Hkv _ Hin).
Qed.

Lemma Repr_lookup s m r k v :
  Repr s m → (r, (k, v)) ∈ m →
  ∃ e, store s !! r = Some e ∧ key e = k ∧ value e = v.
Proof.
  intros HR Hin. pose proof (Repr_kv _ _ _ _ _ HR Hin) as Hkv.
  unfold kv in Hkv. destruct (store s !! r) as [e|]; simplify_eq/=. eauto.
Qed.

Lemma Repr_ref_inj s m r x y : Repr s m → (r, x) ∈ m → (r, y) ∈ m → x = y.
Proof.
  intros HR Hx Hy. destruct x as [k v], y as [k' v'].
  pose proof (Repr_kv _ _ _ _ _ HR Hx). pose proof (Repr_kv _ _ _ _ _ HR Hy).
  congruence.
Qed.

Lemma Repr_key_inj s m r r' k v v' :
  Repr s m → (r, (k, v)) ∈ m → (r', (k, v')) ∈ m → r = r' ∧ v = v'.
Proof.
  intros HR Hx Hy.
  assert (keymap s !! k = Some r) as H1 by (apply (repr_keymap _ _ HR); eauto).
  assert (keymap s !! k = Some r') as H2 by (apply (repr_keymap _ _ HR); eauto).
  assert (r = r') as <- by congruence. split; [done|].
  pose proof (Repr_ref_inj _ _ _ _ _ HR Hx Hy). congruence.
Qed.

Lemma Repr_absent s m k :
  Repr s m → keymap s !! k = None ↔ k ∉ m.*2.*1.
Proof.
  intros HR. split.
  - intros Hk Hin. apply list_elem_of_fmap in Hin as ([k' v] & -> & Hin).
    apply list_elem_of_fmap in Hin as ([r kv'] & ? & Hin). simplify_eq/=.
    assert (keymap s !! k' = Some r) by (apply (repr_keymap _ _ HR); eauto).
    congruence.
  - intros Hk. destruct (keymap s !! k) as [r|] eqn:E; [|done].
    apply (repr_keymap _ _ HR) in E as [v Hin]. exfalso. apply Hk.
    apply list_elem_of_fmap. exists (k, v). split; [done|].
    apply list_elem_of_fmap. by exists (r, (k, v)).
Qed.

Lemma Repr_lt s m r : Repr s m → r ∈ m.*1 → (r < length (store s))%nat.
Proof. intros HR. eapply dseg_lt, repr_links, HR. Qed.

(** ** A cache constructed without entries *)

Lemma Repr_empty z h : Repr (mkLRUMap 0 z None None ∅ h) [].
Proof.
  split; simpl; try done.
  - constructor.
  - intros k r. rewrite lookup_empty. split; [done|]. intros [? ?%elem_of_nil]. done.
Qed.

Lemma Repr_keymap_delete s m1 r k v m2 :
  Repr s (m1 ++ (r, (k, v)) :: m2) →
  ∀ k' r', delete k (keymap s) !! k' = Some r' ↔ ∃ v', (r', (k', v')) ∈ m1 ++ m2.
Proof.
  intros HR k' r'. rewrite lookup_delete. case_decide as Hk.
  - subst k'. split; [done|]. intros [v' Hin]. exfalso.
    assert ((r, (k, v)) ∈ m1 ++ (r, (k, v)) :: m2) as Hr by set_solver.
    assert ((r', (k, v')) ∈ m1 ++ (r, (k, v)) :: m2) as Hr' by set_solver.
    destruct (Repr_key_inj _ _ _ _ _ _ _ HR Hr Hr') as [<- <-].
    pose proof (repr_NoDup _ _ HR) as Hnd.
    rewrite fmap_app, fmap_cons in Hnd. simpl in Hnd.
    apply NoDup_app in Hnd as (_ & Hd & [Hn _]%NoDup_cons).
    apply elem_of_app in Hin as [Hin|Hin].
    + apply (Hd r); [|left]. apply list_elem_of_fmap. by exists (r, (k, v)).
    + apply Hn. apply list_elem_of_fmap. by exists (r, (k, v)).
  - rewrite (repr_keymap _ _ HR). split; intros [v' Hin]; exists v'.
    + set_solver.
    + set_solver.
Qed.

Lemma dseg_alter_notin h f r p l n :
  r ∉ l → dseg h p l n → dseg (alter f r h) p l n.
Proof.
  intros Hr. apply dseg_frame. intros r' Hr'. unfold links.
  rewrite list_lookup_alter_ne; [done|]. by intros ->.
Qed.

Lemma Forall_kv_alter_newer h r x m :
  Forall (λ y, kv h y.1 = Some y.2) m →
  Forall (λ y, kv (alter (put_newer x) r h) y.1 = Some y.2) m.
Proof.
  intros HF. eapply Forall_impl; [exact HF|].
  intros y Hy. by rewrite kv_alter_newer.
Qed.

Lemma Forall_kv_alter_older h r x m :
  Forall (λ y, kv h y.1 = Some y.2) m →
  Forall (λ y, kv (alter (put_older x) r h) y.1 = Some y.2) m.
Proof.
  intros HF. eapply Forall_impl; [exact HF|].
  intros y Hy. by rewrite kv_alter_older.
Qed.

(** ** shift *)

Lemma shift_empty s : Repr s [] → shift s = (None, s).
Proof. intros HR. unfold shift. by rewrite (repr_oldest _ _ HR). Qed.

Lemma shift_Repr s r k v m :
  Repr s ((r, (k, v)) :: m) →
  ∃ s', shift s = (Some (k, v), s') ∧ Repr s' m ∧
        limit s' = limit s ∧ size s' = size s - 1 ∧
        keymap s' = delete k (keymap s) ∧
        links (store s') r = Some (None, None).
Proof.
  intros HR.
  destruct (Repr_lookup _ _ r k v HR) as (e & He & Hk & Hv); [left|].
  pose proof (repr_NoDup _ _ HR) as Hnd. pose proof (repr_links _ _ HR) as Hl.
  pose proof (repr_kv _ _ HR) as Hkv. apply Forall_cons in Hkv as [_ Hkv].
  pose proof (Repr_keymap_delete s [] r k v m HR) as Hkm.
  pose proof (repr_size _ _ HR) as Hsz.
  pose proof (repr_newest _ _ HR) as Hnew.
  rewrite fmap_cons in Hnd, Hl, Hnew. cbn [fst length] in Hnd, Hl, Hsz, Hnew.
  apply NoDup_cons in Hnd as [Hr Hnd]. destruct Hl as [Hlr Hl].
  unfold shift. rewrite (repr_oldest _ _ HR). cbn [fmap head list_fmap fst].
  rewrite (NEWER_links _ _ _ _ Hlr).
  destruct m as [|[r2 x2] m]; cbn [hd_or fmap list_fmap fst].
  - cbn. rewrite !list_lookup_alter_eq, He. cbn. rewrite Hk, Hv.
    eexists. split; [done|]. split; [|repeat split; cbn; try done].
    + split; cbn; try done; try constructor. cbn in Hsz. lia.
    + unfold links. by rewrite !list_lookup_alter_eq, He.
  - rewrite fmap_cons in Hr, Hnd, Hl, Hnew. cbn [fst hd_or] in Hr, Hnd, Hl, Hnew.
    assert (r ≠ r2) as Hne by set_solver.
    cbn. rewrite !list_lookup_alter_eq.
    rewrite list_lookup_alter_ne, He by done. cbn. rewrite Hk, Hv.
    eexists. split; [done|]. split; [|repeat split; cbn; try done].
    + split; cbn [oldest newest store size keymap with_size with_keymap
        with_store with_oldest with_newest set_NEWER set_OLDER].
      * by rewrite fmap_cons.
      * by rewrite fmap_cons.
      * rewrite Hnew, fmap_cons. by rewrite last_cons_cons.
      * rewrite fmap_cons. cbn [fst].
        do 2 (apply dseg_alter_notin; [set_solver|]).
        apply dseg_set_prev with (p := Some r); [|done].
        by apply NoDup_cons in Hnd as [? _].
      * by apply Forall_kv_alter_newer, Forall_kv_alter_older, Forall_kv_alter_older.
      * cbn [length] in *. lia.
      * done.
    + unfold links. rewrite !list_lookup_alter_eq.
      rewrite list_lookup_alter_ne, He by done. done.
Qed.

(** ** set: a new key *)

Lemma dseg_snoc_store h e p l n : dseg h p l n → dseg (h ++ [e]) p l n.
Proof.
  intros Hd. eapply dseg_frame; [|exact Hd]. intros r Hr.
  rewrite links_snoc. case_decide; [|done].
  pose proof (dseg_lt _ _ _ _ _ Hd Hr). lia.
Qed.

Lemma Forall_kv_snoc_store h e m :
  Forall (λ y, kv h y.1 = Some y.2) m →
  Forall (λ y, kv (h ++ [e]) y.1 = Some y.2) m.
Proof.
  intros HF. eapply Forall_impl; [exact HF|]. intros y Hy.
  rewrite kv_snoc. case_decide as Hlen; [|done].
  unfold kv in Hy. rewrite lookup_ge_None_2 in Hy; [done | lia].
Qed.

Lemma set'_new k v s :
  keymap s !! k = None →
  set' k v s =
  if decide (size s + 1 > limit s) then shift (appended k v s)
  else (None, appended k v s).
Proof.
  intros Hk. unfold set', appended. rewrite Hk. cbn.
  destruct (newest s); cbn; done.
Qed.

Lemma appended_fields k v s :
  limit (appended k v s) = limit s ∧ size (appended k v s) = size s + 1 ∧
  newest (appended k v s) = Some (length (store s)) ∧
  keymap (appended k v s) = <[k := length (store s)]> (keymap s).
Proof. unfold appended. cbn. by destruct (newest s). Qed.

Lemma appended_Repr k v s m :
  Repr s m → keymap s !! k = None →
  Repr (appended k v s) (m ++ [(length (store s), (k, v))]).
Proof.
  intros HR Hk. set (r := length (store s)).
  pose proof (repr_NoDup _ _ HR) as Hnd. pose proof (repr_links _ _ HR) as Hl.
  pose proof (repr_kv _ _ HR) as Hkv. pose proof (repr_size _ _ HR) as Hsz.
  pose proof (repr_newest _ _ HR) as Hnew.
  pose proof (repr_oldest _ _ HR) as Hold.
  assert (r ∉ m.*1) as Hr.
  { intros Hin. pose proof (Repr_lt _ _ _ HR Hin). unfold r in *. lia. }
  assert (∀ k' r', <[k:=r]> (keymap s) !! k' = Some r' ↔
                   ∃ v', (r', (k', v')) ∈ m ++ [(r, (k, v))]) as Hkm.
  { intros k' r'. rewrite lookup_insert. case_decide as Hkk.
    - subst k'. split.
      + intros [= <-]. exists v. set_solver.
      + intros [v' [Hin|Hin]%elem_of_app].
        * assert (keymap s !! k = Some r') by (apply (repr_keymap _ _ HR); eauto).
          congruence.
        * apply list_elem_of_singleton in Hin. congruence.
    - rewrite (repr_keymap _ _ HR). split; intros [v' Hin]; exists v'.
      + set_solver.
      + apply elem_of_app in Hin as [Hin|Hin]; [done|].
        apply list_elem_of_singleton in Hin. congruence. }
  unfold appended. cbn. fold r.
  destruct (newest s) as [n|] eqn:En.
  - symmetry in Hnew. apply last_Some in Hnew as [l' Hl'].
    assert (n ≠ r) as Hnr.
    { intros ->. apply Hr. rewrite Hl'. set_solver. }
    assert (n ∉ l') as Hnl.
    { rewrite Hl' in Hnd. apply NoDup_app in Hnd as (_ & Hd & _).
      intros Hin. apply (Hd n Hin). by left. }
    split; cbn.
    + rewrite fmap_app. cbn. apply NoDup_app. split; [done|]. split.
      * intros x Hx ->%list_elem_of_singleton. done.
      * apply NoDup_singleton.
    + rewrite fmap_app, Hold. cbn. rewrite head_app.
      destruct (m.*1) eqn:E; [|done]. by destruct l'.
    + rewrite fmap_app. cbn. by rewrite last_snoc.
    + rewrite fmap_app. cbn. apply dseg_app. split; cbn.
      * apply dseg_alter_notin; [done|]. rewrite Hl'.
        apply dseg_set_nxt with (n := None); [done|].
        apply dseg_snoc_store. by rewrite <- Hl'.
      * split; [|done]. unfold last_or. rewrite Hl', last_snoc.
        unfold links. rewrite list_lookup_alter_eq.
        rewrite list_lookup_alter_ne by done.
        unfold r. by rewrite list_lookup_middle.
    + apply Forall_app. split.
      * by apply Forall_kv_alter_older, Forall_kv_alter_newer,
          Forall_kv_snoc_store.
      * apply Forall_singleton. cbn.
        rewrite kv_alter_older, kv_alter_newer, kv_snoc.
        by rewrite decide_True.
    + rewrite length_app. cbn. lia.
    + done.
  - symmetry in Hnew. apply last_None in Hnew.
    apply fmap_nil_inv in Hnew. subst m. split; cbn.
    + apply NoDup_singleton.
    + done.
    + done.
    + split; [|done]. unfold links. unfold r. by rewrite list_lookup_middle.
    + apply Forall_singleton. cbn. rewrite kv_snoc. by rewrite decide_True.
    + cbn in Hsz. lia.
    + done.
Qed.

(** ** _markEntryAsUsed *)

Lemma dseg_set_last h p l r n n' :
  NoDup l → last l = Some r → dseg h p l n →
  dseg (alter (put_newer n') r h) p l n'.
Proof.
  intros Hnd [l' ->]%last_Some Hd.
  apply dseg_set_nxt with (n := n); [|done].
  apply NoDup_app in Hnd as (_ & Hd' & _). intros Hin. apply (Hd' r Hin). by left.
Qed.

Lemma dseg_set_head h p p' l r n :
  NoDup l → head l = Some r → dseg h p l n →
  dseg (alter (put_older p') r h) p' l n.
Proof.
  intros Hnd Hh Hd. destruct l as [|r' l]; simplify_eq/=.
  apply dseg_set_prev with (p := p); [|done]. by apply NoDup_cons in Hnd as [? _].
Qed.

Lemma last_or_last l d r : last l = Some r → last_or l d = Some r.
Proof. unfold last_or. by intros ->. Qed.

Lemma hd_or_head l d r : head l = Some r → hd_or l d = Some r.
Proof. destruct l; simpl; congruence. Qed.

Lemma NEWER_set_OLDER s r r' x : NEWER r (set_OLDER r' x s) = NEWER r s.
Proof.
  unfold NEWER. cbn. rewrite list_lookup_alter. case_decide; [subst|done].
  by destruct (store s !! r).
Qed.

Lemma OLDER_set_NEWER s r r' x : OLDER r (set_NEWER r' x s) = OLDER r s.
Proof.
  unfold OLDER. cbn. rewrite list_lookup_alter. case_decide; [subst|done].
  by destruct (store s !! r).
Qed.

Lemma NEWER_set_NEWER_ne s r r' x :
  r' ≠ r → NEWER r (set_NEWER r' x s) = NEWER r s.
Proof. intros Hne. unfold NEWER. cbn. by rewrite list_lookup_alter_ne. Qed.

Lemma OLDER_set_OLDER_ne s r r' x :
  r' ≠ r → OLDER r (set_OLDER r' x s) = OLDER r s.
Proof. intros Hne. unfold OLDER. cbn. by rewrite list_lookup_alter_ne. Qed.

Lemma NEWER_with_oldest s r o : NEWER r (with_oldest o s) = NEWER r s.
Proof. done. Qed.

Lemma OLDER_with_oldest s r o : OLDER r (with_oldest o s) = OLDER r s.
Proof. done. Qed.

Lemma mark_newest s r : newest s = Some r → _markEntryAsUsed r s = s.
Proof. intros Hn. unfold _markEntryAsUsed. by rewrite decide_True. Qed.

Lemma mark_Repr s m1 r x m2 :
  Repr s (m1 ++ (r, x) :: m2) →
  Repr (_markEntryAsUsed r s) (m1 ++ m2 ++ [(r, x)]) ∧
  limit (_markEntryAsUsed r s) = limit s ∧
  size (_markEntryAsUsed r s) = size s ∧
  keymap (_markEntryAsUsed r s) = keymap s ∧
  newest (_markEntryAsUsed r s) = Some r.
Proof.
  intros HR.
  pose proof (repr_NoDup _ _ HR) as Hnd. pose proof (repr_links _ _ HR) as Hl.
  pose proof (repr_kv _ _ HR) as Hkv. pose proof (repr_size _ _ HR) as Hsz.
  pose proof (repr_newest _ _ HR) as Hnew.
  pose proof (repr_oldest _ _ HR) as Hold.
  pose proof (repr_keymap _ _ HR) as Hkm.
  rewrite fmap_app, fmap_cons in Hnd, Hl, Hnew, Hold. cbn [fst] in *.
  set (l1 := m1.*1) in *. set (l2 := m2.*1) in *.
  destruct (last l2) as [nl|] eqn:El2.
  2:{ apply last_None in El2. unfold l2 in El2. apply fmap_nil_inv in El2.
      subst m2. rewrite last_app in Hnew. cbn in Hnew.
      rewrite mark_newest by done. cbn [app]. done. }
  assert (∃ n, head l2 = Some n) as [n Hn].
  { destruct l2; [done | eauto]. }
  apply NoDup_app in Hnd as (Hnd1 & Hd12 & [Hr2 Hnd2]%NoDup_cons).
  assert (r ∉ l1) as Hr1.
  { intros Hin. apply (Hd12 r Hin). by left. }
  assert (∀ y, y ∈ l1 → y ∉ l2) as Hd.
  { intros y Hy Hy2. apply (Hd12 y Hy). by right. }
  assert (nl ∈ l2) as Hnl2 by by eapply last_Some_elem_of.
  assert (n ∈ l2) as Hn2. { destruct l2; simplify_eq/=. by left. }
  assert (nl ≠ r) as Hnlr by (by intros ->).
  assert (n ≠ r) as Hnr by (by intros ->).
  assert (nl ∉ l1) as Hnl1 by (intros ?; by eapply Hd).
  assert (n ∉ l1) as Hn1 by (intros ?; by eapply Hd).
  apply dseg_app in Hl as [HA [HB HC]]. cbn [hd_or] in HA.
  rewrite (hd_or_head _ _ _ Hn) in HB.
  rewrite last_app, last_cons, El2 in Hnew.
  assert (Forall (λ y, kv (store s) y.1 = Some y.2) (m1 ++ m2 ++ [(r, x)])) as Hkv'.
  { rewrite !Forall_app, Forall_cons in Hkv. rewrite !Forall_app, Forall_singleton.
    tauto. }
  assert (∀ k' r', keymap s !! k' = Some r' ↔
            ∃ v', (r', (k', v')) ∈ m1 ++ m2 ++ [(r, x)]) as Hkm'.
  { intros k' r'. rewrite Hkm. split; intros [v' Hin]; exists v'; set_solver. }
  assert (NoDup (m1 ++ m2 ++ [(r, x)]).*1) as Hnd'.
  { rewrite !fmap_app. cbn. fold l1 l2. apply NoDup_app. split; [done|]. split.
    - intros y Hy [Hy2| ->%list_elem_of_singleton]%elem_of_app; [|done].
      by apply (Hd y).
    - apply NoDup_app. split; [done|]. split; [|apply NoDup_singleton].
      intros y Hy ->%list_elem_of_singleton. done. }
  assert (length (m1 ++ m2 ++ [(r, x)]) = length (m1 ++ (r, x) :: m2)) as Hlen.
  { rewrite !length_app. cbn. lia. }
  unfold _markEntryAsUsed. rewrite decide_False by congruence.
  rewrite (NEWER_links _ _ _ _ HB). cbv zeta.
  destruct (last l1) as [oo|] eqn:El1.
  - assert (oo ∈ l1) as Hoo1 by by eapply last_Some_elem_of.
    assert (oo ≠ r) as Hoor by (by intros ->).
    assert (oo ∉ l2) as Hoo2 by by apply Hd.
    assert (oldest s ≠ Some r) as Ho.
    { rewrite Hold, head_app. destruct l1; [done|]. cbn. intros [= ->].
      apply Hr1. by left. }
    rewrite (last_or_last _ _ _ El1) in HB.
    destruct (decide (oldest s = Some r)) as [?|_]; [done|].
    rewrite OLDER_set_OLDER_ne, NEWER_set_OLDER by done.
    rewrite (NEWER_links _ _ _ _ HB), (OLDER_links _ _ _ _ HB).
    cbn [newest set_OLDER set_NEWER with_store]. rewrite Hnew.
    split; [|done]. pose proof (links_lt _ _ _ HB) as [e He]%lookup_lt_is_Some.
    split; cbn; [done | | | | | lia | done].
    + rewrite Hold, !fmap_app, !head_app. fold l1. by destruct l1.
    + rewrite !fmap_app. cbn. by rewrite app_assoc, last_snoc.
    + rewrite !fmap_app. fold l1 l2. cbn. apply dseg_app. split.
      * rewrite hd_or_app, (hd_or_head _ _ _ Hn).
        do 3 (apply dseg_alter_notin; [done|]).
        apply dseg_set_last with (n := Some r); [done..|].
        by apply dseg_alter_notin; [done|].
      * rewrite (last_or_last _ _ _ El1). apply dseg_app. split.
        -- cbn. apply dseg_set_last with (n := None); [done..|].
           do 3 (apply dseg_alter_notin; [done|]).
           by apply dseg_set_head with (p := Some r).
        -- rewrite (last_or_last _ _ _ El2). cbn. split; [|done]. unfold links.
           rewrite list_lookup_alter_ne by done.
           rewrite !list_lookup_alter_eq.
           rewrite !list_lookup_alter_ne by done. by rewrite He.
    + by apply Forall_kv_alter_newer, Forall_kv_alter_older,
        Forall_kv_alter_newer, Forall_kv_alter_newer, Forall_kv_alter_older.
  - apply last_None in El1. assert (m1 = []) as -> by exact (fmap_nil_inv fst _ El1).
    subst l1. cbn [app fmap list_fmap head] in *.
    unfold last_or in HB. cbn in HB.
    destruct (decide (oldest s = Some r)) as [_|?]; [|done].
    rewrite OLDER_set_OLDER_ne, OLDER_with_oldest by done.
    rewrite (OLDER_links _ _ _ _ HB).
    cbn [newest set_OLDER set_NEWER with_store with_oldest]. rewrite Hnew.
    split; [|done]. pose proof (links_lt _ _ _ HB) as [e He]%lookup_lt_is_Some.
    split; cbn; [done | | | | | lia | done].
    + rewrite !fmap_app, !head_app. fold l2. by rewrite Hn.
    + rewrite !fmap_app. cbn. by rewrite last_snoc.
    + rewrite !fmap_app. fold l2. cbn. apply dseg_app. split.
      * cbn. apply dseg_set_last with (n := None); [done..|].
        do 2 (apply dseg_alter_notin; [done|]).
        by apply dseg_set_head with (p := Some r).
      * rewrite (last_or_last _ _ _ El2). cbn. split; [|done]. unfold links.
        rewrite list_lookup_alter_ne by done.
        rewrite !list_lookup_alter_eq.
        rewrite !list_lookup_alter_ne by done. by rewrite He.
    + by apply Forall_kv_alter_newer, Forall_kv_alter_older,
        Forall_kv_alter_newer, Forall_kv_alter_older.
Qed.

(** ** set: an existing key *)

Lemma set_value_Repr s m1 r k v0 v m2 :
  Repr s (m1 ++ (r, (k, v0)) :: m2) →
  Repr (set_value r v s) (m1 ++ (r, (k, v)) :: m2).
Proof.
  intros HR.
  pose proof (repr_NoDup _ _ HR) as Hnd. pose proof (repr_kv _ _ HR) as Hkv.
  rewrite fmap_app, fmap_cons in Hnd. cbn [fst] in Hnd.
  apply NoDup_app in Hnd as (Hnd1 & Hd12 & [Hr2 Hnd2]%NoDup_cons).
  assert (r ∉ m1.*1) as Hr1.
  { intros Hin. apply (Hd12 r Hin). by left. }
  rewrite Forall_app, Forall_cons in Hkv. destruct Hkv as (Hkv1 & Hkvr & Hkv2).
  split; cbn.
  - rewrite fmap_app, fmap_cons. cbn [fst].
    pose proof (repr_NoDup _ _ HR) as Hnd. by rewrite fmap_app, fmap_cons in Hnd.
  - rewrite (repr_oldest _ _ HR). by rewrite !fmap_app, !fmap_cons.
  - rewrite (repr_newest _ _ HR). by rewrite !fmap_app, !fmap_cons.
  - pose proof (repr_links _ _ HR) as Hl.
    rewrite !fmap_app, !fmap_cons in *. cbn [fst] in *.
    eapply dseg_frame; [|exact Hl]. intros r' _. apply links_alter_value.
  - rewrite Forall_app, Forall_cons. rewrite Forall_forall in Hkv1, Hkv2.
    split_and!.
    + apply Forall_forall. intros [r' x] Hin. cbn.
      rewrite kv_alter_value. case_decide; [subst r'|exact (Hkv1 _ Hin)].
      exfalso. apply Hr1. apply list_elem_of_fmap. by exists (r, x).
    + cbn in *. rewrite kv_alter_value, decide_True, Hkvr by done. done.
    + apply Forall_forall. intros [r' x] Hin. cbn.
      rewrite kv_alter_value. case_decide; [subst r'|exact (Hkv2 _ Hin)].
      exfalso. apply Hr2. apply list_elem_of_fmap. by exists (r, x).
  - rewrite (repr_size _ _ HR), !length_app. done.
  - intros k' r'. rewrite (repr_keymap _ _ HR).
    split; intros [v' Hin]; rewrite elem_of_app, elem_of_cons in Hin;
      destruct Hin as [Hin|[Hin|Hin]]; simplify_eq;
      try (exists v'; set_solver).
    + exists v. set_solver.
    + exists v0. set_solver.
Qed.

Lemma Repr_split s m k r :
  Repr s m → keymap s !! k = Some r →
  ∃ m1 v m2, m = m1 ++ (r, (k, v)) :: m2.
Proof.
  intros HR [v Hin]%(repr_keymap _ _ HR).
  apply list_elem_of_split in Hin as (m1 & m2 & ->). eauto.
Qed.

Lemma set'_old k v s r :
  keymap s !! k = Some r →
  set' k v s = (None, _markEntryAsUsed r (set_value r v s)).
Proof. intros Hk. unfold set'. by rewrite Hk. Qed.

Lemma set_old_Repr s m1 r k v0 v m2 :
  Repr s (m1 ++ (r, (k, v0)) :: m2) →
  Repr (set k v s) (m1 ++ m2 ++ [(r, (k, v))]) ∧
  limit (set k v s) = limit s ∧ size (set k v s) = size s ∧
  keymap (set k v s) = keymap s ∧ newest (set k v s) = Some r.
Proof.
  intros HR.
  assert (keymap s !! k = Some r) as Hk.
  { apply (repr_keymap _ _ HR). exists v0. set_solver. }
  unfold set. rewrite (set'_old _ _ _ _ Hk). cbn [snd].
  apply (set_value_Repr _ _ _ _ _ v) in HR.
  by apply mark_Repr in HR.
Qed.

(** ** get *)

Lemma get_absent s k : keymap s !! k = None → get k s = (None, s).
Proof. intros Hk. unfold get. by rewrite Hk. Qed.

Lemma get_Repr s m1 r k v m2 :
  Repr s (m1 ++ (r, (k, v)) :: m2) →
  (get k s).1 = Some v ∧
  Repr (get k s).2 (m1 ++ m2 ++ [(r, (k, v))]) ∧
  limit (get k s).2 = limit s ∧ size (get k s).2 = size s ∧
  keymap (get k s).2 = keymap s ∧ newest (get k s).2 = Some r.
Proof.
  intros HR.
  assert (keymap s !! k = Some r) as Hk.
  { apply (repr_keymap _ _ HR). exists v. set_solver. }
  unfold get. rewrite Hk. cbn [fst snd].
  destruct (mark_Repr _ _ _ _ _ HR) as (HR' & ?).
  split; [|done].
  destruct (Repr_lookup _ _ r k v HR') as (e & -> & _ & <-); [set_solver|done].
Qed.

(** ** delete *)

Lemma delete_absent s k : keymap s !! k = None → delete_ k s = (None, s).
Proof. intros Hk. unfold delete_. by rewrite Hk. Qed.

Lemma delete_Repr s m1 r k v m2 :
  Repr s (m1 ++ (r, (k, v)) :: m2) →
  ∃ s', delete_ k s = (Some v, s') ∧ Repr s' (m1 ++ m2) ∧
        limit s' = limit s ∧ size s' = size s - 1 ∧
        keymap s' = delete k (keymap s) ∧
        links (store s') r = links (store s) r.
Proof.
  intros HR.
  assert (keymap s !! k = Some r) as Hk.
  { apply (repr_keymap _ _ HR). exists v. set_solver. }
  destruct (Repr_lookup _ _ r k v HR) as (e & He & Hke & Hve); [set_solver|].
  pose proof (repr_NoDup _ _ HR) as Hnd. pose proof (repr_links _ _ HR) as Hl.
  pose proof (repr_kv _ _ HR) as Hkv. pose proof (repr_size _ _ HR) as Hsz.
  pose proof (repr_newest _ _ HR) as Hnew.
  pose proof (repr_oldest _ _ HR) as Hold.
  pose proof (Repr_keymap_delete _ _ _ _ _ _ HR) as Hkm.
  rewrite fmap_app, fmap_cons in Hnd, Hl, Hnew, Hold. cbn [fst] in *.
  set (l1 := m1.*1) in *. set (l2 := m2.*1) in *.
  apply NoDup_app in Hnd as (Hnd1 & Hd12 & [Hr2 Hnd2]%NoDup_cons).
  assert (r ∉ l1) as Hr1.
  { intros Hin. apply (Hd12 r Hin). by left. }
  assert (∀ y, y ∈ l1 → y ∉ l2) as Hd.
  { intros y Hy Hy2. apply (Hd12 y Hy). by right. }
  assert (NoDup (m1 ++ m2).*1) as Hnd'.
  { rewrite fmap_app. apply NoDup_app. done. }
  assert (Forall (λ y, kv (store s) y.1 = Some y.2) (m1 ++ m2)) as Hkv'.
  { rewrite !Forall_app, Forall_cons in Hkv. rewrite !Forall_app. tauto. }
  assert (Z.of_nat (length (m1 ++ m2)) = size s - 1) as Hlen.
  { rewrite Hsz, !length_app. cbn. lia. }
  apply dseg_app in Hl as [HA [HB HC]]. cbn [hd_or] in HA.
  unfold delete_. rewrite Hk, He. cbv zeta.
  change (NEWER r (with_keymap _ s)) with (NEWER r s).
  change (OLDER r (with_keymap _ s)) with (OLDER r s).
  rewrite (NEWER_links _ _ _ _ HB), (OLDER_links _ _ _ _ HB).
  rewrite last_app, last_cons in Hnew. rewrite head_app in Hold.
  destruct (last l1) as [oo|] eqn:El1; destruct (head l2) as [n|] eqn:El2.
  - rewrite (last_or_last _ _ _ El1), (hd_or_head _ _ _ El2) in *.
    assert (oo ∈ l1) as Hoo1 by by eapply last_Some_elem_of.
    assert (n ∈ l2) as Hn2. { destruct l2; simplify_eq/=. by left. }
    assert (oo ≠ r) as Hoor by (by intros ->).
    assert (n ≠ r) as Hnr by (by intros ->).
    assert (oo ∉ l2) as Hoo2 by by apply Hd.
    assert (n ∉ l1) as Hn1 by (intros ?; by eapply Hd).
    fields. rewrite !list_lookup_alter_ne, He by done. cbn [fmap option_fmap option_map].
    rewrite Hke, Hve.
    eexists. split; [done|]. split; [|repeat split; fields; try lia].
    + split; fields; [done | | | | | lia | done].
      * rewrite Hold, fmap_app, head_app. fold l1. by destruct l1.
      * rewrite Hnew, fmap_app, last_app. fold l2.
        destruct (last l2) eqn:E; [done|]. apply last_None in E.
        by rewrite E in El2.
      * rewrite fmap_app. fold l1 l2. apply dseg_app. split.
        -- rewrite (hd_or_head _ _ _ El2). apply dseg_alter_notin; [done|].
           by apply dseg_set_last with (n := Some r).
        -- rewrite (last_or_last _ _ _ El1).
           apply dseg_set_head with (p := Some r); [done..|].
           by apply dseg_alter_notin.
      * by apply Forall_kv_alter_older, Forall_kv_alter_newer.
    + unfold links. by rewrite !list_lookup_alter_ne by done.
  - apply head_None in El2. assert (m2 = []) as -> by exact (fmap_nil_inv fst _ El2).
    subst l2. rewrite (last_or_last _ _ _ El1) in *. cbn [hd_or fmap list_fmap] in *.
    assert (oo ∈ l1) as Hoo1 by by eapply last_Some_elem_of.
    assert (oo ≠ r) as Hoor by (by intros ->).
    fields. rewrite !list_lookup_alter_ne, He by done. cbn [fmap option_fmap option_map].
    rewrite Hke, Hve.
    eexists. split; [done|]. split; [|repeat split; fields; try lia].
    + rewrite app_nil_r in *.
      split; fields; [done | | | | | lia | done].
      * rewrite Hold. fold l1. by destruct l1.
      * fold l1. by rewrite El1.
      * fold l1. by apply dseg_set_last with (n := Some r).
      * by apply Forall_kv_alter_newer.
    + unfold links. by rewrite !list_lookup_alter_ne by done.
  - apply last_None in El1. assert (m1 = []) as -> by exact (fmap_nil_inv fst _ El1).
    subst l1. rewrite (hd_or_head _ _ _ El2) in *. unfold last_or in *.
    cbn [last app fmap list_fmap] in *.
    assert (n ∈ l2) as Hn2. { destruct l2; simplify_eq/=. by left. }
    assert (n ≠ r) as Hnr by (by intros ->).
    fields. rewrite !list_lookup_alter_ne, He by done. cbn [fmap option_fmap option_map].
    rewrite Hke, Hve.
    eexists. split; [done|]. split; [|repeat split; fields; try lia].
    + split; fields; [done | | | | | lia | done].
      * fold l2. by rewrite El2.
      * rewrite Hnew. fold l2. destruct (last l2) eqn:E; [done|].
        apply last_None in E. by rewrite E in El2.
      * fold l2. by apply dseg_set_head with (p := Some r).
      * by apply Forall_kv_alter_older.
    + unfold links. by rewrite !list_lookup_alter_ne by done.
  - apply last_None in El1. assert (m1 = []) as -> by exact (fmap_nil_inv fst _ El1).
    apply head_None in El2. assert (m2 = []) as -> by exact (fmap_nil_inv fst _ El2).
    subst l1 l2. unfold last_or in *. cbn [last app hd_or fmap list_fmap] in *.
    fields. rewrite He. cbn [fmap option_fmap option_map].
    rewrite Hke, Hve.
    eexists. split; [done|]. split; [|repeat split; fields; try lia].
    split; fields; done.
Qed.

(** ** clear *)

Lemma clear_Repr s : Repr (clear s) [] ∧ limit (clear s) = limit s.
Proof.
  split; [|done]. split; cbn; try done.
  - constructor.
  - intros k r. rewrite lookup_empty. split; [done|]. by intros [? ?%elem_of_nil].
Qed.

(** ** toJSON *)

Lemma walk_dseg h p m (fuel : nat) :
  dseg h p m.*1 None →
  Forall (λ x, kv h x.1 = Some x.2) m →
  (length m ≤ fuel)%nat →
  walk fuel h (hd_or m.*1 None) = Some m.*2.
Proof.
  revert p fuel. induction m as [|[r [k v]] m IH]; intros p fuel Hd Hkv Hf.
  - by destruct fuel.
  - cbn in Hf. destruct fuel as [|fuel]; [lia|].
    rewrite !fmap_cons in *. cbn [fst snd hd_or] in *. destruct Hd as [Hr Hd].
    apply Forall_cons in Hkv as [Hkr Hkv]. cbn [fst snd] in Hkr.
    cbn [walk]. unfold links, kv in Hr, Hkr.
    destruct (h !! r) as [e|]; simplify_eq/=.
    rewrite H1, (IH (Some r) fuel); [done..|lia].
Qed.

Lemma NoDup_lt_length l b :
  NoDup l → (∀ x, x ∈ l → (x < b)%nat) → (length l ≤ b)%nat.
Proof.
  intros Hnd Hlt. transitivity (length (seq 0 b)); [|by rewrite length_seq].
  apply submseteq_length, NoDup_submseteq; [done|].
  intros x Hx. apply elem_of_seq. specialize (Hlt x Hx). lia.
Qed.

Lemma toJSON_Repr s m : Repr s m → toJSON s = Some m.*2.
Proof.
  intros HR. unfold toJSON. rewrite (repr_oldest _ _ HR).
  replace (head m.*1) with (hd_or m.*1 None) by by destruct (m.*1).
  eapply walk_dseg; [apply (repr_links _ _ HR) | apply (repr_kv _ _ HR) |].
  rewrite <- (length_fmap fst).
  apply NoDup_lt_length; [apply (repr_NoDup _ _ HR)|].
  intros x Hx. by eapply Repr_lt.
Qed.

(** ** set on a new key: with and without eviction *)

Lemma set'_new_keep s m k v :
  Repr s m → keymap s !! k = None → size s + 1 ≤ limit s →
  ∃ s', set' k v s = (None, s') ∧
        Repr s' (m ++ [(length (store s), (k, v))]) ∧
        limit s' = limit s ∧ size s' = size s + 1.
Proof.
  intros HR Hk Hsz. rewrite (set'_new _ _ _ Hk).
  rewrite decide_False by lia. eexists. split; [done|].
  split; [by apply appended_Repr|]. by destruct (appended_fields k v s) as (? & ? & _).
Qed.

Lemma set'_new_evict s m k v :
  Repr s m → keymap s !! k = None → size s + 1 > limit s →
  ∃ y m' s', m ++ [(length (store s), (k, v))] = y :: m' ∧
        set' k v s = (Some y.2, s') ∧ Repr s' m' ∧
        limit s' = limit s ∧ size s' = size s ∧
        keymap s' = delete y.2.1 (<[k := length (store s)]> (keymap s)) ∧
        links (store s') y.1 = Some (None, None).
Proof.
  intros HR Hk Hsz. rewrite (set'_new _ _ _ Hk).
  rewrite decide_True by lia.
  pose proof (appended_Repr k v _ _ HR Hk) as HR'.
  destruct (appended_fields k v s) as (Hl & Hs & _ & Hkm).
  destruct (m ++ [(length (store s), (k, v))]) as [|[r0 [k0 v0]] m'] eqn:E.
  { by destruct m. }
  destruct (shift_Repr _ _ _ _ _ HR') as (s' & Hsh & HR'' & Hl' & Hs' & Hkm' & Hlk).
  exists (r0, (k0, v0)), m', s'. cbn [fst snd].
  split_and!; try done; [congruence | lia | congruence].
Qed.

(** ** Sequences of set calls *)

Lemma has_keymap s k : has k s = true ↔ is_Some (keymap s !! k).
Proof. unfold has. apply bool_decide_eq_true. Qed.

Lemma run_sets_inv ops s m t :
  Repr s m → size s ≤ limit s →
  size s = Z.of_nat (created t) - Z.of_nat (evicted t) →
  ∃ m', Repr (run_sets ops s t).1 m' ∧
    limit (run_sets ops s t).1 = limit s ∧
    size (run_sets ops s t).1 ≤ limit s ∧
    size (run_sets ops s t).1 =
      Z.of_nat (created (run_sets ops s t).2) -
      Z.of_nat (evicted (run_sets ops s t).2).
Proof.
  revert s m t. induction ops as [|[k v] ops IH]; intros s m t HR Hle Ht.
  { exists m. done. }
  cbn [run_sets]. destruct (keymap s !! k) as [r|] eqn:Hk.
  - assert (has k s = true) as -> by (apply has_keymap; eauto).
    destruct (Repr_split _ _ _ _ HR Hk) as (m1 & v0 & m2 & ->).
    destruct (set_old_Repr _ _ _ _ _ v _ HR) as (HR' & Hl & Hs & _).
    unfold set in *. rewrite (set'_old _ _ _ _ Hk) in *. cbn [snd] in *.
    edestruct (IH _ _ (mkTally (created t + 0) (evicted t + 0)) HR')
      as (m' & ? & ? & ? & ?); [lia | cbn; lia |].
    exists m'. split_and!; [done | congruence | lia | done].
  - assert (has k s = false) as ->.
    { apply not_true_is_false. rewrite has_keymap, Hk. by intros [? ?]. }
    destruct (decide (size s + 1 > limit s)) as [Hgt|Hgt].
    + destruct (set'_new_evict _ _ k v HR Hk Hgt)
        as (y & m' & s' & _ & -> & HR' & Hl & Hs & _).
      edestruct (IH _ _ (mkTally (created t + 1) (evicted t + 1)) HR')
        as (m'' & ? & ? & ? & ?); [lia | cbn; lia |].
      exists m''. split_and!; [done | congruence | lia | done].
    + destruct (set'_new_keep _ _ k v HR Hk ltac:(lia))
        as (s' & -> & HR' & Hl & Hs).
      edestruct (IH _ _ (mkTally (created t + 1) (evicted t + 0)) HR')
        as (m'' & ? & ? & ? & ?); [lia | cbn; lia |].
      exists m''. split_and!; [done | congruence | lia | done].
Qed.

(** ** assign *)

Lemma assign_loop_throws it entry lim s :
  (assign_loop it entry lim s).1 = None ↔
  match lim with
  | Num z => 0 ≤ z < Z.of_nat (length it)
  | MAX_VALUE => False
  end.
Proof.
  revert entry lim s. induction it as [|[k v] it IH]; intros entry lim s.
  - cbn. destruct lim; [|done]. split; [done | lia].
  - cbn [assign_loop new_Entry]. destruct lim as [z|]; cbn [jsnum_is_zero jsnum_dec].
    + destruct (Z.eqb_spec z 0) as [->|Hz].
      * cbn. split; [lia | done].
      * rewrite IH. cbn [length]. lia.
    + by rewrite IH.
Qed.

Lemma consumed_cons lim (p : K * V) it :
  consumed lim (p :: it) =
  if jsnum_is_zero lim then 1%nat else S (consumed (jsnum_dec lim) it).
Proof.
  unfold consumed. destruct lim as [z|]; cbn [jsnum_is_zero jsnum_dec length]; [|done].
  destruct (Z.eqb_spec z 0) as [->|Hz].
  - rewrite decide_True by lia. done.
  - repeat case_decide; try lia; done.
Qed.

Lemma assign_loop_fields it entry lim s :
  size (assign_loop it entry lim s).2 = size s ∧
  limit (assign_loop it entry lim s).2 = limit s ∧
  newest (assign_loop it entry lim s).2 = newest s ∧
  oldest (assign_loop it entry lim s).2 =
    match entry, it with
    | None, _ :: _ => Some (length (store s))
    | _, _ => oldest s
    end ∧
  dom (keymap (assign_loop it entry lim s).2) =
    dom (keymap s) ∪ list_to_set (take (consumed lim it) it).*1 ∧
  (length (store s) ≤ length (store (assign_loop it entry lim s).2))%nat ∧
  ∀ x p, kv (store s) x = Some p →
         kv (store (assign_loop it entry lim s).2) x = Some p.
Proof.
  revert entry lim s. induction it as [|[k v] it IH]; intros entry lim s.
  - cbn. split_and!; try done.
    + by destruct entry.
    + rewrite take_nil. set_solver.
  - rewrite consumed_cons. cbn [assign_loop new_Entry].
    set (e := length (store s)).
    set (s1 := match entry with
               | Some p => set_OLDER e (Some p) (set_NEWER p (Some e) _)
               | None => with_oldest (Some e) _
               end).
    assert (size s1 = size s ∧ limit s1 = limit s ∧ newest s1 = newest s ∧
            oldest s1 = match entry with None => Some e | _ => oldest s end ∧
            keymap s1 = <[k := e]> (keymap s) ∧
            (length (store s1) = S (length (store s))) ∧
            (∀ x, kv (store s1) x =
                  if decide (x = e) then Some (k, v) else kv (store s) x))
      as (Hs & Hl & Hn & Ho & Hk & Hlen & Hkv).
    { unfold s1. destruct entry; fields.
      - split_and!; try done.
        + rewrite !length_alter, length_app. cbn. lia.
        + intros x. by rewrite kv_alter_older, kv_alter_newer, kv_snoc.
      - split_and!; try done.
        + rewrite length_app. cbn. lia.
        + intros x. by rewrite kv_snoc. }
    assert (∀ x p, kv (store s) x = Some p → kv (store s1) x = Some p) as Hkv'.
    { intros x p Hx. rewrite Hkv. case_decide as Hxe; [|done]. subst x.
      unfold kv in Hx. rewrite lookup_ge_None_2 in Hx; [done | unfold e; lia]. }
    destruct (jsnum_is_zero lim).
    + fields. rewrite Hs, Hl, Hn, Ho, Hk.
      split_and!; try done; try lia; try (by destruct entry).
      rewrite dom_insert_L. cbn. set_solver.
    + destruct (IH (Some e) (jsnum_dec lim) s1) as (-> & -> & -> & -> & -> & Hlen' & Hkv'').
      rewrite Hs, Hl, Hn, Ho, Hk.
      split_and!; try done; try lia; try (by destruct entry, it); auto.
      rewrite dom_insert_L. cbn. set_solver.
Qed.

Lemma assign_unfold entries s :
  assign entries s =
  match assign_loop entries None (or_MAX_VALUE (limit s)) (with_keymap ∅ s) with
  | (None, s') => Thrown "overflow" s'
  | (Some entry, s') =>
      Returned (with_size (Z.of_nat (base.size (keymap s'))) (with_newest entry s'))
  end.
Proof. done. Qed.

Lemma assign_Thrown_iff entries s :
  (∃ msg s', assign entries s = Thrown msg s') ↔
  0 < limit s < Z.of_nat (length entries).
Proof.
  rewrite assign_unfold.
  pose proof (assign_loop_throws entries None (or_MAX_VALUE (limit s))
                (with_keymap ∅ s)) as Hthr.
  destruct (assign_loop _ _ _ _) as [[entry|] s']; cbn [fst] in Hthr.
  - split; [by intros (? & ? & ?)|]. intros Hlim.
    assert (Some entry = None) as Hf; [|done]. apply Hthr.
    unfold or_MAX_VALUE. destruct (Z.eqb_spec (limit s) 0); lia.
  - split; [|eauto]. intros _.
    assert (match or_MAX_VALUE (limit s) with
            | Num z => 0 ≤ z < Z.of_nat (length entries)
            | MAX_VALUE => False
            end) as Hm by by apply Hthr.
    unfold or_MAX_VALUE in Hm. destruct (Z.eqb_spec (limit s) 0); [done | lia].
Qed.

Lemma assign_Thrown_state entries s msg s' :
  assign entries s = Thrown msg s' →
  msg = "overflow" ∧
  s' = (assign_loop entries None (Num (limit s)) (with_keymap ∅ s)).2 ∧
  0 < limit s < Z.of_nat (length entries).
Proof.
  intros Ha.
  assert (0 < limit s < Z.of_nat (length entries)) as Hlim.
  { apply assign_Thrown_iff. eauto. }
  rewrite assign_unfold in Ha. unfold or_MAX_VALUE in Ha.
  destruct (Z.eqb_spec (limit s) 0); [lia|].
  destruct (assign_loop _ _ _ _) as [[entry|] s'']; by simplify_eq/=.
Qed.

(** ** Checking the invariant on a given state *)

Lemma Repr_check s m :
  NoDup m.*1 → NoDup m.*2.*1 →
  oldest s = head m.*1 → newest s = last m.*1 →
  dseg (store s) None m.*1 None →
  Forall (λ x, kv (store s) x.1 = Some x.2) m →
  size s = Z.of_nat (length m) →
  keymap s = list_to_map ((λ x, (x.2.1, x.1)) <$> m) →
  Repr s m.
Proof.
  intros Hnd Hndk Ho Hn Hd Hkv Hs Hkm. split; try done.
  intros k r. rewrite Hkm. rewrite <- elem_of_list_to_map.
  - rewrite list_elem_of_fmap. split.
    + intros ([r' [k' v']] & [= -> ->] & Hin). eauto.
    + intros [v Hin]. by exists (r, (k, v)).
  - rewrite <- list_fmap_compose.
    by replace (fst ∘ (λ x : nat * (K * V), (x.2.1, x.1))) with
      (fst ∘ (snd : nat * (K * V) → K * V)) by done; rewrite list_fmap_compose.
Qed.

(** The invariant determines the shape of the cache for small sizes. *)
Lemma Repr_nil_iff s m : Repr s m → (m = [] ↔ size s = 0).
Proof.
  intros HR. rewrite (repr_size _ _ HR). destruct m; cbn; split; (done || lia).
Qed.

Lemma Repr_endpoints s m :
  Repr s m →
  (size s = 0 ↔ oldest s = None) ∧ (size s = 0 ↔ newest s = None).
Proof.
  intros HR. rewrite (repr_size _ _ HR), (repr_oldest _ _ HR), (repr_newest _ _ HR).
  destruct m as [|x m]; cbn [length]; [done|]. split.
  - split; [lia | done].
  - split; [lia|]. rewrite fmap_cons, last_cons. by destruct (last m.*1).
Qed.

(** ** The index has as many keys as the list has entries *)

Lemma keymap_size_list (km : gmap K ref) m :
  NoDup m.*1 →
  (∀ k r, km !! k = Some r ↔ ∃ v, (r, (k, v)) ∈ m) →
  base.size km = length m.
Proof.
  revert km. induction m as [|[r [k v]] m IH]; intros km Hnd Hkm.
  - apply map_size_empty_iff, map_eq. intros k. rewrite lookup_empty.
    destruct (km !! k) as [r|] eqn:E; [|done].
    apply Hkm in E as [v ?%elem_of_nil]. done.
  - rewrite fmap_cons in Hnd. cbn [fst] in Hnd. apply NoDup_cons in Hnd as [Hr Hnd].
    assert (km !! k = Some r) as Hk by (apply Hkm; exists v; by left).
    rewrite <- (insert_delete_id km k r Hk).
    rewrite map_size_insert_None by apply lookup_delete_eq.
    cbn [length]. f_equal. apply IH; [done|]. intros k' r'.
    rewrite lookup_delete. case_decide as Hkk.
    + subst k'. split; [done|]. intros [v' Hin]. exfalso.
      assert (km !! k = Some r') as Hk' by (apply Hkm; exists v'; by right).
      assert (r' = r) as -> by congruence.
      apply Hr. apply list_elem_of_fmap. by exists (r, (k, v')).
    + rewrite Hkm. split; intros [v' Hin]; exists v'.
      * apply elem_of_cons in Hin as [?|?]; [congruence | done].
      * by right.
Qed.

Lemma Repr_keymap_size s m : Repr s m → Z.of_nat (base.size (keymap s)) = size s.
Proof.
  intros HR. rewrite (repr_size _ _ HR). f_equal.
  apply keymap_size_list; [apply (repr_NoDup _ _ HR) | apply (repr_keymap _ _ HR)].
Qed.

(** ** assign on a list of pairs with distinct keys *)

Lemma linked_step s entry m k v :
  Repr (linked_state s entry m) m → (m ≠ [] → oldest s = head m.*1) →
  keymap s !! k = None →
  let e := length (store s) in
  let s0 := with_store (store s ++ [mkEntry k v None None]) s in
  let s1 := with_keymap (<[k := e]> (keymap s0)) s0 in
  let s2 :=
    match entry with
    | None => with_oldest (Some e) s1
    | Some p => set_OLDER e (Some p) (set_NEWER p (Some e) s1)
    end in
  Repr (linked_state s2 (Some e) (m ++ [(e, (k, v))])) (m ++ [(e, (k, v))]) ∧
  oldest s2 = head (m ++ [(e, (k, v))]).*1.
Proof.
  intros HR Ho Hk e s0 s1 s2.
  pose proof (appended_Repr k v _ _ HR Hk) as HR'.
  pose proof (repr_newest _ _ HR) as Hn. cbn [newest linked_state with_newest] in Hn.
  assert (oldest s2 = head (m ++ [(e, (k, v))]).*1) as Ho2.
  { rewrite fmap_app, head_app. unfold s2, s1, s0. destruct entry as [p|]; fields.
    - destruct m as [|x m]; [done|]. by rewrite Ho.
    - symmetry in Hn. apply last_None in Hn. by rewrite Hn. }
  split; [|done].
  replace (linked_state s2 (Some e) (m ++ [(e, (k, v))]))
    with (appended k v (linked_state s entry m)); [done|].
  unfold appended, linked_state, new_Entry, s2, s1, s0. fields.
  rewrite length_app, Nat2Z.inj_add. cbn [length].
  rewrite fmap_app, head_app. fold e.
  destruct entry as [p|]; fields; unfold with_newest, with_size, with_oldest,
    with_keymap, with_store; fields; f_equal.
  - destruct m; [done|]. by rewrite fmap_cons.
  - symmetry in Hn. apply last_None in Hn. by rewrite Hn.
Qed.

Lemma assign_loop_linked it s entry m lim :
  Repr (linked_state s entry m) m → (m ≠ [] → oldest s = head m.*1) →
  NoDup (m.*2.*1 ++ it.*1) →
  (assign_loop it entry lim s).1 ≠ None →
  ∃ entry' m',
    (assign_loop it entry lim s).1 = Some entry' ∧
    m'.*2 = m.*2 ++ it ∧
    Repr (linked_state (assign_loop it entry lim s).2 entry' m') m' ∧
    (m' ≠ [] → oldest (assign_loop it entry lim s).2 = head m'.*1).
Proof.
  revert s entry m lim. induction it as [|[k v] it IH]; intros s entry m lim HR Ho Hnd Hthr.
  - exists entry, m. cbn. by rewrite app_nil_r.
  - cbn [assign_loop new_Entry] in *.
    assert (keymap s !! k = None) as Hk.
    { apply (Repr_absent _ _ k HR). apply NoDup_app in Hnd as (_ & Hd & _).
      intros Hin. apply (Hd k Hin). rewrite fmap_cons. by left. }
    destruct (linked_step _ _ _ k v HR Ho Hk) as [HR1 Ho1].
    destruct (jsnum_is_zero lim); [done|].
    edestruct (IH _ (Some (length (store s))) _ (jsnum_dec lim) HR1)
      as (entry' & m' & He & Hm & HR' & Ho'); [done | | exact Hthr |].
    { rewrite !fmap_app, <- app_assoc. exact Hnd. }
    exists entry', m'. split_and!; try done.
    rewrite Hm, fmap_app, <- app_assoc. done.
Qed.

Lemma assign_Repr entries s s' :
  NoDup entries.*1 → entries ≠ [] → assign entries s = Returned s' →
  ∃ m, m.*2 = entries ∧ Repr s' m ∧ limit s' = limit s.
Proof.
  intros Hnd Hne Ha. rewrite assign_unfold in Ha.
  edestruct (assign_loop_linked entries (with_keymap ∅ s) None []
               (or_MAX_VALUE (limit s)))
    as (entry' & m' & He & Hm & HR & Ho).
  - apply Repr_empty.
  - done.
  - done.
  - intros Hf. by rewrite (surjective_pairing (assign_loop _ _ _ _)), Hf in Ha.
  - rewrite (surjective_pairing (assign_loop _ _ _ _)), He in Ha.
    injection Ha as <-. exists m'. cbn in Hm. split; [done|].
    destruct (assign_loop_fields entries None (or_MAX_VALUE (limit s))
                (with_keymap ∅ s)) as (_ & Hl & _).
    split; [|done].
    assert (m' ≠ []) as Hm' by (intros ->; by destruct entries).
    pose proof (keymap_size_list _ _ (repr_NoDup _ _ HR) (repr_keymap _ _ HR)) as Hsz.
    cbn [keymap linked_state with_newest with_size with_oldest] in Hsz.
    split; fields.
    + apply (repr_NoDup _ _ HR).
    + by apply Ho.
    + apply (repr_newest _ _ HR).
    + apply (repr_links _ _ HR).
    + apply (repr_kv _ _ HR).
    + by rewrite Hsz.
    + apply (repr_keymap _ _ HR).
Qed.

(** ** Summary: the operations keep the invariant

    For [assign] this needs a list that is not empty: on an empty list
    the loop body, which alone assigns [oldest], is never run. *)

Lemma operations_preserve_Repr s m :
  Repr s m →
  (∀ k v, ∃ m', Repr (set k v s) m') ∧
  (∀ k, ∃ m', Repr (get k s).2 m') ∧
  (∀ k, ∃ m', Repr (delete_ k s).2 m') ∧
  (∃ m', Repr (shift s).2 m') ∧
  Repr (clear s) [] ∧
  (∀ entries s', NoDup entries.*1 → entries ≠ [] →
     assign entries s = Returned s' → ∃ m', Repr s' m').
Proof.
  intros HR. split_and!.
  - intros k v. destruct (keymap s !! k) as [r|] eqn:Hk.
    + destruct (Repr_split _ _ _ _ HR Hk) as (m1 & v0 & m2 & ->).
      destruct (set_old_Repr _ _ _ _ _ v _ HR) as (HR' & _). eauto.
    + unfold set. destruct (decide (size s + 1 > limit s)) as [Hgt|Hle].
      * destruct (set'_new_evict _ _ k v HR Hk Hgt)
          as (y & m' & s' & _ & -> & HR' & _). eauto.
      * destruct (set'_new_keep _ _ k v HR Hk ltac:(lia))
          as (s' & -> & HR' & _). eauto.
  - intros k. destruct (keymap s !! k) as [r|] eqn:Hk.
    + destruct (Repr_split _ _ _ _ HR Hk) as (m1 & v0 & m2 & ->).
      destruct (get_Repr _ _ _ _ _ _ HR) as (_ & HR' & _). eauto.
    + rewrite (get_absent _ _ Hk). eauto.
  - intros k. destruct (keymap s !! k) as [r|] eqn:Hk.
    + destruct (Repr_split _ _ _ _ HR Hk) as (m1 & v0 & m2 & ->).
      destruct (delete_Repr _ _ _ _ _ _ HR) as (s' & -> & HR' & _). eauto.
    + rewrite (delete_absent _ _ Hk). eauto.
  - destruct m as [|[r [k v]] m'].
    + rewrite (shift_empty _ HR). eauto.
    + destruct (shift_Repr _ _ _ _ _ HR) as (s' & -> & HR' & _). eauto.
  - apply clear_Repr.
  - intros entries s' Hnd Hne Ha.
    destruct (assign_Repr _ _ _ Hnd Hne Ha) as (m' & _ & HR' & _). eauto.
Qed.

(** What the invariant says about [size], the index and the endpoints. *)
Lemma Repr_structure s m :
  Repr s m →
  size s = Z.of_nat (length m) ∧
  Z.of_nat (base.size (keymap s)) = size s ∧
  toJSON s = Some m.*2 ∧
  (size s = 0 ↔ oldest s = None) ∧ (size s = 0 ↔ newest s = None) ∧
  (size s = 1 →
   ∃ r, oldest s = Some r ∧ newest s = Some r ∧
        links (store s) r = Some (None, None)).
Proof.
  intros HR. destruct (Repr_endpoints _ _ HR) as [Ho Hn].
  split_and!; try done.
  - apply (repr_size _ _ HR).
  - by eapply Repr_keymap_size.
  - by apply toJSON_Repr.
  - intros H1. pose proof (repr_size _ _ HR) as Hs.
    destruct m as [|[r x] [|y m]]; cbn in Hs; try lia.
    exists r. split_and!.
    + apply (repr_oldest _ _ HR).
    + apply (repr_newest _ _ HR).
    + by destruct (repr_links _ _ HR) as [Hl _].
Qed.

End Proofs.

(** * The scenario states satisfy the invariant *)

Ltac repr_check :=
  apply Repr_check;
  [ refine (bool_decide_unpack _ _); vm_compute; exact I
  | refine (bool_decide_unpack _ _); vm_compute; exact I
  | reflexivity
  | reflexivity
  | vm_compute; repeat split
  | repeat constructor
  | reflexivity
  | vm_compute; reflexivity ].

Lemma scenario_abc_Repr :
  Repr scenario_abc [(0%nat, ("a", 1)); (1%nat, ("b", 2)); (2%nat, ("c", 3))].
Proof. repr_check. Qed.

Lemma scenario_abc_get_a_Repr :
  Repr scenario_abc_get_a
    [(1%nat, ("b", 2)); (2%nat, ("c", 3)); (0%nat, ("a", 1))].
Proof. repr_check. Qed.

Lemma scenario_four_Repr :
  Repr scenario_four
    [(0%nat, ("adam", 29)); (1%nat, ("john", 26)); (2%nat, ("angela", 24));
     (3%nat, ("bob", 48))].
Proof. repr_check. Qed.

Lemma new_cache_Repr lim : Repr (new_cache lim) [].
Proof. apply Repr_empty. Qed.

Lemma thrown_Some {K V} `{Countable K} (o : outcome K V) msg :
  thrown o = Some msg → o = Thrown msg (state_of o).
Proof. destruct o; simpl; congruence. Qed.

Lemma thrown_None {K V} `{Countable K} (o : outcome K V) :
  thrown o = None → o = Returned (state_of o).
Proof. destruct o; simpl; congruence. Qed.

Lemma thrown_overflow {K V} `{Countable K} (s : LRUMap K V) entries :
  thrown (assign entries s) = Some "overflow" ↔
  0 < limit s < Z.of_nat (length entries).
Proof.
  rewrite <- assign_Thrown_iff. split.
  - intros Ht%thrown_Some. eauto.
  - intros (msg & s' & Ha). rewrite Ha. cbn.
    by destruct (assign_Thrown_state _ _ _ _ Ha) as (-> & _).
Qed.

Lemma thrown_assign_None {K V} `{Countable K} (s : LRUMap K V) entries :
  thrown (assign entries s) = None ↔
  ¬ (0 < limit s < Z.of_nat (length entries)).
Proof.
  rewrite <- thrown_overflow. destruct (assign entries s) as [s'|msg s'] eqn:Ha.
  - cbn. split; [by intros _ ? | done].
  - cbn. split; [done|]. intros Hn. exfalso. apply Hn.
    by destruct (assign_Thrown_state _ _ _ _ Ha) as (-> & _).
Qed.

(** Evaluation of a closed goal. *)
Ltac by_compute :=
  vm_compute; repeat split; first [reflexivity | discriminate | exact I].

Lemma five_pairs_overflow :
  thrown (assign five_pairs scenario_four) = Some "overflow".
Proof. by_compute. Qed.

(** * The claims *)

(** C1.  On a cache with nonzero limit whose size equals its limit,
    [set(k, v)] with a key that is not present removes exactly one
    entry, the oldest one, which the inner [shift] returns; the other
    entries keep their order and the new entry is the newest.  In the
    scenario with capacity 3 (set a, b, c; get a; set d) the evicted
    entry is b and the order is c, a, d. *)
Theorem set_on_full_cache_evicts_oldest :
  (∀ (K V : Type) `{Countable K} (s : LRUMap K V) m (k : K) (v : V),
     Repr s m → limit s ≠ 0 → size s = limit s → keymap s !! k = None →
     ∃ r0 k0 v0 m' s',
       m = (r0, (k0, v0)) :: m' ∧
       set' k v s = (Some (k0, v0), s') ∧
       Repr s' (m' ++ [(length (store s), (k, v))]) ∧
       size s' = size s ∧ keymap s' !! k0 = None ∧
       toJSON s = Some ((k0, v0) :: m'.*2) ∧
       toJSON s' = Some (m'.*2 ++ [(k, v)])) ∧
  (toJSON scenario_abc = Some [("a", 1); ("b", 2); ("c", 3)] ∧
   toJSON scenario_abc_get_a = Some [("b", 2); ("c", 3); ("a", 1)] ∧
   (set' "d" 4 scenario_abc_get_a).1 = Some ("b", 2) ∧
   toJSON (set "d" 4 scenario_abc_get_a) = Some [("c", 3); ("a", 1); ("d", 4)]).
Proof.
  split; [|by_compute].
  intros K V ? ? s m k v HR Hlim Hfull Hk.
  destruct m as [|[r0 [k0 v0]] m'].
  { pose proof (repr_size _ _ HR) as Hs. cbn in Hs. lia. }
  destruct (set'_new_evict _ _ k v HR Hk ltac:(lia))
    as (y & m'' & s' & Hy & Hset & HR' & Hl & Hs & Hkm & _).
  cbn in Hy. simplify_eq. cbn [fst snd] in *.
  exists r0, k0, v0, m', s'. split_and!; try done.
  - rewrite Hkm. apply lookup_delete_eq.
  - by rewrite (toJSON_Repr _ _ HR).
  - rewrite (toJSON_Repr _ _ HR'). by rewrite fmap_app.
Qed.

Lemma set_on_full_cache_evicts_oldest_witness :
  ∃ s', set' "d" 4 scenario_abc_get_a = (Some ("b", 2), s') ∧
        toJSON s' = Some [("c", 3); ("a", 1); ("d", 4)].
Proof.
  destruct (proj1 set_on_full_cache_evicts_oldest string Z _ _
              scenario_abc_get_a _ "d" 4 scenario_abc_get_a_Repr)
    as (r0 & k0 & v0 & m' & s' & Hm & Hset & _ & _ & _ & _ & Hj).
  - vm_compute. discriminate.
  - reflexivity.
  - reflexivity.
  - injection Hm as <- <- <- <-. exists s'. split; [exact Hset | exact Hj].
Defined.

(** C2, as stated, fails: with capacity 1 the calls set a, set b, set a
    insert two distinct keys and evict twice, and the size is 1, not
    2 - 2. *)
Lemma size_distinct_keys_counterexample :
  let ops := [("a", 1); ("b", 2); ("a", 3)] in
  let r := run_sets ops (new_cache 1) (mkTally 0 0) in
  size r.1 = 1 ∧ distinct_keys ops = 2%nat ∧ evicted r.2 = 2%nat ∧
  size r.1 ≠ Z.of_nat (distinct_keys ops) - Z.of_nat (evicted r.2).
Proof. by_compute. Qed.

(** C2, amended.  From a state with [size <= limit], [set] leaves
    [size <= limit]; and after any sequence of [set] calls on a freshly
    constructed cache, [size] is at most [limit] and equals the number
    of entries created (calls whose key was not in the index at the time
    of the call) minus the number of evictions. *)
Theorem set_keeps_size_within_limit :
  ∀ (K V : Type) `{Countable K},
    (∀ (s : LRUMap K V) m (k : K) (v : V),
       Repr s m → size s ≤ limit s →
       size (set k v s) ≤ limit (set k v s)) ∧
    (∀ (lim : Z) (ops : list (K * V)),
       0 ≤ lim →
       ∃ c : LRUMap K V,
         constructor (Some lim) None = Returned c ∧
         size (run_sets ops c (mkTally 0 0)).1 ≤
           limit (run_sets ops c (mkTally 0 0)).1 ∧
         limit (run_sets ops c (mkTally 0 0)).1 = lim ∧
         size (run_sets ops c (mkTally 0 0)).1 =
           Z.of_nat (created (run_sets ops c (mkTally 0 0)).2) -
           Z.of_nat (evicted (run_sets ops c (mkTally 0 0)).2)).
Proof.
  intros K V ? ?. split.
  - intros s m k v HR Hle.
    pose proof (repr_size _ _ HR) as Hs.
    destruct (run_sets_inv [(k, v)] s m (mkTally (length m) 0) HR Hle)
      as (m' & _ & Hl & Hsz & _); [cbn; lia|].
    cbn [run_sets] in Hl, Hsz. unfold set.
    destruct (set' k v s) as [ev s']. cbn [fst snd] in *. lia.
  - intros lim ops Hlim. exists (mkLRUMap 0 lim None None ∅ []).
    split; [reflexivity|].
    edestruct (run_sets_inv ops (mkLRUMap 0 lim None None ∅ []) []
                 (mkTally 0 0)) as (m' & _ & Hl & Hsz & Ht).
    + apply Repr_empty.
    + done.
    + done.
    + cbn [limit] in Hl, Hsz. rewrite Hl. done.
Qed.

Lemma set_keeps_size_within_limit_witness :
  size scenario_abc_get_a ≤ limit scenario_abc_get_a ∧
  size (set "d" 4 scenario_abc_get_a) ≤ limit (set "d" 4 scenario_abc_get_a).
Proof.
  split; [vm_compute; discriminate|].
  refine (proj1 (set_keeps_size_within_limit string Z) scenario_abc_get_a _
            "d" 4 scenario_abc_get_a_Repr _).
  vm_compute. discriminate.
Defined.

(** C3.  If the key is present, [get(key)] returns the value stored for
    it, which is the value last given to [set] for that key, and moves
    its entry to the newest end: [newest] is that entry right after
    [get(key)], and also right after [set(key, v')].  If the key is
    absent, [get(key)] returns nothing and the state is unchanged. *)
Theorem get_returns_value_and_promotes :
  ∀ (K V : Type) `{Countable K} (s : LRUMap K V) m (k : K),
    Repr s m →
    (∀ r, keymap s !! k = Some r →
       ∃ m1 v m2,
         m = m1 ++ (r, (k, v)) :: m2 ∧
         (get k s).1 = Some v ∧
         newest (get k s).2 = Some r ∧
         Repr (get k s).2 (m1 ++ m2 ++ [(r, (k, v))]) ∧
         ∀ v', newest (set k v' s) = Some r ∧
               Repr (set k v' s) (m1 ++ m2 ++ [(r, (k, v'))]) ∧
               (get k (set k v' s)).1 = Some v') ∧
    (keymap s !! k = None → get k s = (None, s)) ∧
    (∀ v', 1 ≤ limit s → (get k (set k v' s)).1 = Some v').
Proof.
  intros K V ? ? s m k HR. split_and!.
  - intros r Hk. destruct (Repr_split _ _ _ _ HR Hk) as (m1 & v & m2 & ->).
    exists m1, v, m2. split; [done|].
    destruct (get_Repr _ _ _ _ _ _ HR) as (Hg & HR' & _ & _ & _ & Hn).
    split_and!; try done. intros v'.
    destruct (set_old_Repr _ _ _ _ _ v' _ HR) as (HRs & _ & _ & _ & Hns).
    split_and!; try done.
    rewrite app_assoc in HRs.
    by pose proof (get_Repr _ _ _ _ _ _ HRs) as (Hg' & _).
  - apply get_absent.
  - intros v' Hlim. destruct (keymap s !! k) as [r|] eqn:Hk.
    + destruct (Repr_split _ _ _ _ HR Hk) as (m1 & v & m2 & ->).
      destruct (set_old_Repr _ _ _ _ _ v' _ HR) as (HRs & _).
      rewrite app_assoc in HRs.
      by pose proof (get_Repr _ _ _ _ _ _ HRs) as (Hg' & _).
    + unfold set. destruct (decide (size s + 1 > limit s)) as [Hgt|Hle].
      * destruct (set'_new_evict _ _ k v' HR Hk Hgt)
          as (y & m' & s' & Hy & -> & HR' & _).
        cbn [snd]. destruct m as [|x m].
        { pose proof (repr_size _ _ HR) as Hs. cbn in Hs. lia. }
        cbn in Hy. simplify_eq.
        rewrite <- (app_nil_r (m ++ _)), <- app_assoc in HR'.
        by pose proof (get_Repr _ _ _ _ _ _ HR') as (Hg' & _).
      * destruct (set'_new_keep _ _ k v' HR Hk ltac:(lia))
          as (s' & -> & HR' & _).
        cbn [snd]. rewrite <- (app_nil_r (m ++ _)), <- app_assoc in HR'.
        by pose proof (get_Repr _ _ _ _ _ _ HR') as (Hg' & _).
Qed.

Lemma get_returns_value_and_promotes_witness :
  (∃ m1 v m2,
     [(0%nat, ("a", 1)); (1%nat, ("b", 2)); (2%nat, ("c", 3))] =
       m1 ++ (0%nat, ("a", v)) :: m2 ∧
     (get "a" scenario_abc).1 = Some v ∧
     newest (get "a" scenario_abc).2 = Some 0%nat) ∧
  get "z" scenario_abc = (None, scenario_abc).
Proof.
  destruct (get_returns_value_and_promotes string Z scenario_abc _ "a"
              scenario_abc_Repr) as (Hp & _ & _).
  destruct (get_returns_value_and_promotes string Z scenario_abc _ "z"
              scenario_abc_Repr) as (_ & Ha & _).
  split; [|exact (Ha eq_refl)].
  destruct (Hp 0%nat eq_refl) as (m1 & v & m2 & Hm & Hg & Hn & _).
  exists m1, v, m2. split; [exact Hm | split; [exact Hg | exact Hn]].
Defined.

(** C4: [assign] of an empty list on a non-empty cache returns normally
    and leaves [oldest] set while [size] is 0, [newest] is unset and the
    index is empty; the chain from [oldest] still holds the old entry,
    and the invariant holds for no list. *)
Theorem assign_empty_keeps_oldest :
  let o := assign [] (set "a" 1 (new_cache 4)) in
  thrown o = None ∧
  size (state_of o) = 0 ∧ newest (state_of o) = None ∧
  keymap (state_of o) = ∅ ∧
  oldest (state_of o) = Some 0%nat ∧
  toJSON (state_of o) = Some [("a", 1)] ∧
  ¬ ∃ m, Repr (state_of o) m.
Proof.
  split_and!; try by_compute.
  intros [m HR]. destruct (Repr_endpoints _ _ HR) as [[Ho _] _].
  by specialize (Ho eq_refl).
Qed.

(** C5.  [assign(entries)] throws, with the message overflow, exactly
    when the limit is positive and there are more pairs than the limit;
    for a cache whose limit is a non-negative integer this is: the
    limit is nonzero and the number of pairs exceeds it.  Five pairs
    into a cache of limit 4 throw. *)
Theorem assign_throws_iff_overflow :
  (∀ (K V : Type) `{Countable K} (s : LRUMap K V) (entries : list (K * V)),
     (thrown (assign entries s) = Some "overflow" ↔
      0 < limit s < Z.of_nat (length entries)) ∧
     (0 ≤ limit s →
      (thrown (assign entries s) = Some "overflow" ↔
       limit s ≠ 0 ∧ Z.of_nat (length entries) > limit s) ∧
      (thrown (assign entries s) = None ↔
       ¬ (limit s ≠ 0 ∧ Z.of_nat (length entries) > limit s)))) ∧
  (limit scenario_four = 4 ∧
   thrown (assign five_pairs scenario_four) = Some "overflow" ∧
   thrown (assign four_pairs scenario_four) = None).
Proof.
  split; [|by_compute].
  intros K V ? ? s entries. split; [apply thrown_overflow|].
  intros Hlim. rewrite thrown_overflow, thrown_assign_None. lia.
Qed.

Lemma assign_throws_iff_overflow_witness :
  0 ≤ limit scenario_four ∧
  (thrown (assign five_pairs scenario_four) = Some "overflow" ↔
   limit scenario_four ≠ 0 ∧
   Z.of_nat (length five_pairs) > limit scenario_four).
Proof.
  assert (0 ≤ limit scenario_four) as Hlim by (vm_compute; discriminate).
  split; [exact Hlim|].
  exact (proj1 (proj2 (proj1 assign_throws_iff_overflow string Z _ _
                         scenario_four five_pairs) Hlim)).
Defined.

(** C6, as stated, fails: after [assign] of two pairs has thrown on an
    empty cache of limit 1, the index holds both keys and the chain
    from [oldest] holds both entries. *)
Lemma assign_overflow_not_empty_counterexample :
  let o := assign [("a", 1); ("b", 2)] (new_cache 1) in
  thrown o = Some "overflow" ∧
  has "a" (state_of o) = true ∧ has "b" (state_of o) = true ∧
  find "a" (state_of o) = Some 1 ∧
  oldest (state_of o) = Some 0%nat ∧
  toJSON (state_of o) = Some [("a", 1); ("b", 2)] ∧
  keymap (state_of o) ≠ ∅.
Proof. by_compute. Qed.

(** C6, amended.  When [assign] throws, the index has been cleared and
    then filled with the keys of the first [limit + 1] pairs, so it is
    not empty; [oldest] is the entry created for the first pair; [size],
    [newest] and [limit] are what they were before the call. *)
Theorem assign_overflow_leaves_partial_state :
  ∀ (K V : Type) `{Countable K} (s : LRUMap K V) (entries : list (K * V))
    msg s',
    assign entries s = Thrown msg s' →
    msg = "overflow" ∧
    dom (keymap s') =
      list_to_set (take (S (Z.to_nat (limit s))) entries).*1 ∧
    keymap s' ≠ ∅ ∧
    oldest s' = Some (length (store s)) ∧
    kv (store s') (length (store s)) = head entries ∧
    size s' = size s ∧ newest s' = newest s ∧ limit s' = limit s.
Proof.
  intros K V ? ? s entries msg s' Ha.
  destruct (assign_Thrown_state _ _ _ _ Ha) as (-> & -> & Hlim).
  split; [done|].
  destruct (assign_loop_fields entries None (Num (limit s)) (with_keymap ∅ s))
    as (Hs & Hl & Hn & Ho & Hd & _ & _).
  destruct entries as [|[k v] it]; [cbn in Hlim; lia|].
  assert (dom (keymap (assign_loop ((k, v) :: it) None (Num (limit s))
                         (with_keymap ∅ s)).2) =
          list_to_set (take (S (Z.to_nat (limit s))) ((k, v) :: it)).*1) as Hd'.
  { rewrite Hd. unfold consumed. rewrite decide_True by lia.
    cbn [keymap with_keymap]. rewrite dom_empty_L. set_solver. }
  split_and!; try done.
  - intros He. rewrite He, dom_empty_L in Hd'. cbn in Hd'. set_solver.
  - cbn [assign_loop new_Entry jsnum_is_zero].
    destruct (Z.eqb_spec (limit s) 0) as [?|_]; [lia|].
    match goal with
    | |- kv (store (assign_loop ?i ?e ?l ?s1).2) _ = _ =>
        destruct (assign_loop_fields i e l s1) as (_ & _ & _ & _ & _ & _ & Hkv)
    end.
    apply Hkv. fields. rewrite kv_snoc. by rewrite decide_True.
Qed.

Lemma assign_overflow_leaves_partial_state_witness :
  thrown (assign five_pairs scenario_four) = Some "overflow" ∧
  keymap (state_of (assign five_pairs scenario_four)) ≠ ∅ ∧
  size (state_of (assign five_pairs scenario_four)) = size scenario_four.
Proof.
  destruct (assign_overflow_leaves_partial_state string Z scenario_four
              five_pairs _ _ (thrown_Some _ _ five_pairs_overflow))
    as (_ & _ & Hne & _ & _ & Hs & _).
  split; [exact five_pairs_overflow | split; [exact Hne | exact Hs]].
Defined.

(** C7.  If the key is present, [delete(key)] removes its entry
    wherever it is in the list (entries before and after it keep their
    order and are linked to each other), removes the key from the
    index, decrements [size] and returns the stored value.  If the key
    is absent, it returns nothing and the state is unchanged. *)
Theorem delete_removes_entry :
  ∀ (K V : Type) `{Countable K} (s : LRUMap K V) m (k : K),
    Repr s m →
    (∀ r, keymap s !! k = Some r →
       ∃ m1 v m2 s',
         m = m1 ++ (r, (k, v)) :: m2 ∧
         delete_ k s = (Some v, s') ∧
         Repr s' (m1 ++ m2) ∧
         size s' = size s - 1 ∧
         keymap s' = delete k (keymap s) ∧
         keymap s' !! k = None ∧
         toJSON s' = Some (m1.*2 ++ m2.*2)) ∧
    (keymap s !! k = None → delete_ k s = (None, s)).
Proof.
  intros K V ? ? s m k HR. split.
  - intros r Hk. destruct (Repr_split _ _ _ _ HR Hk) as (m1 & v & m2 & ->).
    destruct (delete_Repr _ _ _ _ _ _ HR) as (s' & Hd & HR' & _ & Hs & Hkm & _).
    exists m1, v, m2, s'. split_and!; try done.
    + rewrite Hkm. apply lookup_delete_eq.
    + rewrite (toJSON_Repr _ _ HR'). by rewrite fmap_app.
  - apply delete_absent.
Qed.

Lemma delete_removes_entry_witness :
  (∃ m1 v m2 s',
     [(0%nat, ("a", 1)); (1%nat, ("b", 2)); (2%nat, ("c", 3))] =
       m1 ++ (1%nat, ("b", v)) :: m2 ∧
     delete_ "b" scenario_abc = (Some v, s') ∧
     size s' = size scenario_abc - 1) ∧
  delete_ "z" scenario_abc = (None, scenario_abc).
Proof.
  destruct (delete_removes_entry string Z scenario_abc _ "b"
              scenario_abc_Repr) as (Hp & _).
  destruct (delete_removes_entry string Z scenario_abc _ "z"
              scenario_abc_Repr) as (_ & Ha).
  split; [|exact (Ha eq_refl)].
  destruct (Hp 1%nat eq_refl) as (m1 & v & m2 & s' & Hm & Hd & _ & Hs & _).
  exists m1, v, m2, s'. split; [exact Hm | split; [exact Hd | exact Hs]].
Defined.

(** C8.  On a non-empty cache [shift()] removes the oldest entry from
    the list and from the index, clears its links, decrements [size] and
    returns its key and value; on an empty cache it returns nothing and
    the state is unchanged.  A cache constructed with capacity 4 from
    four pairs gives them back in their order under four calls of
    [shift()], and the fifth call returns nothing. *)
Theorem shift_removes_oldest :
  (∀ (K V : Type) `{Countable K} (s : LRUMap K V) m,
     Repr s m →
     match m with
     | [] => shift s = (None, s)
     | (r, (k, v)) :: m' =>
         ∃ s', shift s = (Some (k, v), s') ∧
               Repr s' m' ∧
               size s' = size s - 1 ∧
               keymap s' = delete k (keymap s) ∧
               keymap s' !! k = None ∧
               links (store s') r = Some (None, None)
     end) ∧
  (∀ (K V : Type) `{Countable K} (p1 p2 p3 p4 : K * V),
     ∃ s0, constructor (Some 4) (Some [p1; p2; p3; p4]) = Returned s0 ∧
           limit s0 = 4 ∧
           (shift s0).1 = Some p1 ∧
           (shift (shift s0).2).1 = Some p2 ∧
           (shift (shift (shift s0).2).2).1 = Some p3 ∧
           (shift (shift (shift (shift s0).2).2).2).1 = Some p4 ∧
           (shift (shift (shift (shift (shift s0).2).2).2).2).1 = None) ∧
  (constructor (Some 4) (Some four_pairs) = Returned scenario_four ∧
   size scenario_four = 4 ∧
   (shift scenario_four).1 = Some ("adam", 29) ∧
   (shift (shift scenario_four).2).1 = Some ("john", 26) ∧
   (shift (shift (shift scenario_four).2).2).1 = Some ("angela", 24) ∧
   (shift (shift (shift (shift scenario_four).2).2).2).1 = Some ("bob", 48) ∧
   (shift (shift (shift (shift (shift scenario_four).2).2).2).2).1 = None).
Proof.
  split; [|split; [|split_and!; by_compute]].
  - intros K V ? ? s m HR. destruct m as [|[r [k v]] m'].
    + by apply shift_empty.
    + destruct (shift_Repr _ _ _ _ _ HR) as (s' & Hsh & HR' & _ & Hs & Hkm & Hl).
      exists s'. split_and!; try done. rewrite Hkm. apply lookup_delete_eq.
  - intros K V ? ? [k1 v1] [k2 v2] [k3 v3] [k4 v4].
    exists (state_of (constructor (Some 4)
                        (Some [(k1, v1); (k2, v2); (k3, v3); (k4, v4)]))).
    split; [apply thrown_None|]; repeat split; lazy; reflexivity.
Qed.

Lemma shift_removes_oldest_witness :
  ∃ s', shift scenario_four = (Some ("adam", 29), s') ∧
        size s' = size scenario_four - 1.
Proof.
  destruct (proj1 shift_removes_oldest string Z _ _ scenario_four _
              scenario_four_Repr) as (s' & Hsh & _ & Hs & _).
  exists s'. split; [exact Hsh | exact Hs].
Defined.

(** C9, as stated, fails: on [new LRUMap(0)], [set(a, 1)] evicts the
    entry it has just stored, and the cache is empty afterwards. *)
Lemma set_on_limit_zero_counterexample :
  constructor (Some 0) None = Returned (new_cache 0) ∧
  (set' "a" 1 (new_cache 0)).1 = Some ("a", 1) ∧
  has "a" (set "a" 1 (new_cache 0)) = false ∧
  size (set "a" 1 (new_cache 0)) = 0 ∧
  toJSON (set "a" 1 (new_cache 0)) = Some [].
Proof. by_compute. Qed.

(** C9, amended.  On an empty cache whose limit is 0, such as one
    constructed with limit 0 or no limit and no entries, [set] of a key
    stores the entry and evicts it at once ([size] 1 exceeds the limit):
    the inner [shift] returns that entry and the cache is empty again,
    with limit 0. *)
Theorem set_on_limit_zero_evicts_new_entry :
  ∀ (K V : Type) `{Countable K} (s : LRUMap K V) (k : K) (v : V),
    Repr s [] → limit s = 0 →
    ∃ s', set' k v s = (Some (k, v), s') ∧
          Repr s' [] ∧ limit s' = 0 ∧ size s' = 0 ∧
          has k s' = false ∧ toJSON s' = Some [].
Proof.
  intros K V ? ? s k v HR Hlim.
  pose proof (repr_size _ _ HR) as Hs. cbn in Hs.
  assert (keymap s !! k = None) as Hk.
  { destruct (keymap s !! k) as [r|] eqn:E; [|done].
    apply (repr_keymap _ _ HR) in E as [? ?%elem_of_nil]. done. }
  destruct (set'_new_evict _ _ k v HR Hk ltac:(lia))
    as (y & m' & s' & Hy & -> & HR' & Hl & Hs' & _).
  cbn in Hy. simplify_eq. exists s'. cbn [snd].
  split_and!; try done; try lia.
  - apply not_true_is_false. rewrite has_keymap. intros [r Hr].
    apply (repr_keymap _ _ HR') in Hr as [? ?%elem_of_nil]. done.
  - by rewrite (toJSON_Repr _ _ HR').
Qed.

Lemma set_on_limit_zero_evicts_new_entry_witness :
  ∃ s', set' "a" 1 (new_cache 0) = (Some ("a", 1), s') ∧ size s' = 0.
Proof.
  destruct (set_on_limit_zero_evicts_new_entry string Z (new_cache 0) "a" 1
              (new_cache_Repr 0) eq_refl) as (s' & Hset & _ & _ & Hs & _).
  exists s'. split; [exact Hset | exact Hs].
Defined.

(** C10: after [delete(b)] on the cache a, b, c the removed entry still
    has its [OLDER] link to the entry of a and its [NEWER] link to the
    entry of c, both of which are in the cache; [shift] on the same
    cache clears both links of the entry it removes. *)
Theorem delete_keeps_links_of_removed_entry :
  let s' := (delete_ "b" scenario_abc).2 in
  keymap scenario_abc !! "b" = Some 1%nat ∧
  (delete_ "b" scenario_abc).1 = Some 2 ∧
  toJSON s' = Some [("a", 1); ("c", 3)] ∧
  links (store s') 1%nat = Some (Some 0%nat, Some 2%nat) ∧
  keymap s' !! "a" = Some 0%nat ∧ keymap s' !! "c" = Some 2%nat ∧
  oldest scenario_abc = Some 0%nat ∧
  links (store (shift scenario_abc).2) 0%nat = Some (None, None).
Proof. by_compute. Qed.

(** * The other methods, and how the methods compose *)

Section Model.

Context {K V : Type} `{Countable K}.

Implicit Types (s : LRUMap K V) (m : list (ref * (K * V))).
Implicit Types (l : list (K * V)) (k : K) (v : V).

(** ** The list model on lists without repeated keys *)

Lemma model_find_absent k l : k ∉ l.*1 → model_find k l = None.
Proof.
  induction l as [|[k' v] l IH]; [done|]. rewrite fmap_cons, not_elem_of_cons.
  intros [Hk Hl]. cbn. rewrite decide_False by done. auto.
Qed.

Lemma model_remove_absent k l : k ∉ l.*1 → model_remove k l = l.
Proof.
  induction l as [|[k' v] l IH]; [done|]. rewrite fmap_cons, not_elem_of_cons.
  intros [Hk Hl]. cbn. rewrite decide_False by done. by rewrite IH.
Qed.

Lemma model_find_app k l1 l2 :
  model_find k (l1 ++ l2) =
  match model_find k l1 with Some v => Some v | None => model_find k l2 end.
Proof.
  induction l1 as [|[k' v] l1 IH]; [done|]. cbn. by case_decide.
Qed.

Lemma model_remove_app k l1 l2 :
  model_remove k (l1 ++ l2) = model_remove k l1 ++ model_remove k l2.
Proof.
  induction l1 as [|[k' v] l1 IH]; [done|]. cbn. case_decide; [done|].
  by rewrite IH.
Qed.

Lemma model_find_middle k v l1 l2 :
  k ∉ l1.*1 → model_find k (l1 ++ (k, v) :: l2) = Some v.
Proof.
  intros Hk. rewrite model_find_app, (model_find_absent _ _ Hk). cbn.
  by rewrite decide_True.
Qed.

Lemma model_remove_middle k v l1 l2 :
  k ∉ l1.*1 → k ∉ l2.*1 → model_remove k (l1 ++ (k, v) :: l2) = l1 ++ l2.
Proof.
  intros H1 H2. rewrite model_remove_app. cbn. rewrite decide_True by done.
  by rewrite !model_remove_absent.
Qed.

Lemma model_find_Some k v l : model_find k l = Some v → (k, v) ∈ l.
Proof.
  induction l as [|[k' v'] l IH]; [done|]. cbn. case_decide.
  - intros [= ->]. subst. by left.
  - intros Hf. right. auto.
Qed.

Lemma model_find_is_Some k l : is_Some (model_find k l) ↔ k ∈ l.*1.
Proof.
  split.
  - intros [v Hv%model_find_Some]. apply list_elem_of_fmap. by exists (k, v).
  - intros Hk. destruct (model_find k l) eqn:E; [eauto|].
    induction l as [|[k' v'] l IH]; [by apply elem_of_nil in Hk|].
    cbn in E. case_decide; [done|]. rewrite fmap_cons in Hk.
    apply elem_of_cons in Hk as [?|?]; [by subst | auto].
Qed.

Lemma model_remove_subseteq k l : model_remove k l ⊆ l.
Proof.
  induction l as [|[k' v] l IH]; [done|]. cbn. case_decide; set_solver.
Qed.

Lemma model_remove_length k l : (length (model_remove k l) ≤ length l)%nat.
Proof.
  induction l as [|[k' v] l IH]; [done|]. cbn. case_decide; cbn; lia.
Qed.

(** ** The keys of a cache are pairwise distinct *)

Lemma Repr_NoDup_keys s m : Repr s m → NoDup m.*2.*1.
Proof.
  intros HR. apply NoDup_alt. intros i j k Hi Hj.
  rewrite !list_lookup_fmap in Hi, Hj.
  destruct (m !! i) as [[r [k1 v1]]|] eqn:Ei; [|done].
  destruct (m !! j) as [[r' [k2 v2]]|] eqn:Ej; [|done].
  cbn in Hi, Hj. injection Hi as ->. injection Hj as ->.
  destruct (Repr_key_inj s m r r' k v1 v2 HR) as [<- <-].
  - by eapply list_elem_of_lookup_2.
  - by eapply list_elem_of_lookup_2.
  - pose proof (repr_NoDup _ _ HR) as Hnd. rewrite NoDup_alt in Hnd.
    apply (Hnd i j r); by rewrite list_lookup_fmap, ?Ei, ?Ej.
Qed.

Lemma Repr_model_split s m1 r k v m2 :
  Repr s (m1 ++ (r, (k, v)) :: m2) →
  model_find k (m1 ++ (r, (k, v)) :: m2).*2 = Some v ∧
  model_remove k (m1 ++ (r, (k, v)) :: m2).*2 = m1.*2 ++ m2.*2.
Proof.
  intros HR. pose proof (Repr_NoDup_keys _ _ HR) as Hnd.
  rewrite !fmap_app, !fmap_cons in *. cbn [fst snd] in *.
  apply NoDup_app in Hnd as (_ & Hd & [Hk2 _]%NoDup_cons).
  assert (k ∉ m1.*2.*1) as Hk1. { intros Hin. apply (Hd k Hin). by left. }
  split; [by apply model_find_middle | by apply model_remove_middle].
Qed.

Lemma Repr_model_find s m k :
  Repr s m → model_find k m.*2 = find k s ∧ has k s = bool_decide (is_Some (model_find k m.*2)).
Proof.
  intros HR. unfold find, has. destruct (keymap s !! k) as [r|] eqn:Hk.
  - destruct (Repr_split _ _ _ _ HR Hk) as (m1 & v & m2 & ->).
    destruct (Repr_model_split _ _ _ _ _ _ HR) as [-> _].
    destruct (Repr_lookup _ _ r k v HR) as (e & -> & _ & <-); [set_solver|].
    split; [done|]. apply bool_decide_ext. split; eauto.
  - assert (model_find k m.*2 = None) as ->.
    { apply model_find_absent. by apply (Repr_absent _ _ k HR). }
    split; [done|]. apply bool_decide_ext. split; by intros [? ?].
Qed.

(** ** Each call does to the cache what the model does to the list *)

Lemma set_model s m k v :
  Repr s m →
  ∃ m', Repr (set k v s) m' ∧ m'.*2 = model_set (limit s) k v m.*2 ∧
        limit (set k v s) = limit s.
Proof.
  intros HR. unfold model_set. destruct (keymap s !! k) as [r|] eqn:Hk.
  - destruct (Repr_split _ _ _ _ HR Hk) as (m1 & v0 & m2 & ->).
    destruct (Repr_model_split _ _ _ _ _ _ HR) as [-> ->].
    destruct (set_old_Repr _ _ _ _ _ v _ HR) as (HR' & Hl & _).
    eexists. split; [exact HR'|]. split; [|done].
    by rewrite !fmap_app, app_assoc.
  - rewrite (model_find_absent k m.*2) by by apply (Repr_absent _ _ k HR).
    rewrite length_fmap, <- (repr_size _ _ HR). unfold set.
    destruct (decide (size s + 1 > limit s)) as [Hgt|Hle].
    + destruct (set'_new_evict _ _ k v HR Hk Hgt)
        as (y & m' & s' & Hy & -> & HR' & Hl & _).
      exists m'. split; [done|]. split; [|done].
      change [(k, v)] with ([(length (store s), (k, v))].*2).
      by rewrite <- fmap_app, Hy.
    + destruct (set'_new_keep _ _ k v HR Hk ltac:(lia))
        as (s' & -> & HR' & Hl & _).
      eexists. split; [exact HR'|]. split; [|done]. by rewrite fmap_app.
Qed.

Lemma get_model s m k :
  Repr s m →
  (get k s).1 = model_find k m.*2 ∧
  ∃ m', Repr (get k s).2 m' ∧ m'.*2 = model_get k m.*2 ∧
        limit (get k s).2 = limit s.
Proof.
  intros HR. unfold model_get. destruct (keymap s !! k) as [r|] eqn:Hk.
  - destruct (Repr_split _ _ _ _ HR Hk) as (m1 & v0 & m2 & ->).
    destruct (Repr_model_split _ _ _ _ _ _ HR) as [-> ->].
    destruct (get_Repr _ _ _ _ _ _ HR) as (Hg & HR' & Hl & _).
    split; [done|]. eexists. split; [exact HR'|]. split; [|done].
    by rewrite !fmap_app, app_assoc.
  - rewrite (model_find_absent k m.*2) by by apply (Repr_absent _ _ k HR).
    rewrite (get_absent _ _ Hk). eauto.
Qed.

Lemma delete_model s m k :
  Repr s m →
  (delete_ k s).1 = model_find k m.*2 ∧
  ∃ m', Repr (delete_ k s).2 m' ∧ m'.*2 = model_remove k m.*2 ∧
        limit (delete_ k s).2 = limit s.
Proof.
  intros HR. destruct (keymap s !! k) as [r|] eqn:Hk.
  - destruct (Repr_split _ _ _ _ HR Hk) as (m1 & v0 & m2 & ->).
    destruct (Repr_model_split _ _ _ _ _ _ HR) as [-> ->].
    destruct (delete_Repr _ _ _ _ _ _ HR) as (s' & -> & HR' & Hl & _).
    split; [done|]. eexists. split; [exact HR'|]. split; [|done].
    by rewrite !fmap_app.
  - rewrite (model_find_absent k m.*2) by by apply (Repr_absent _ _ k HR).
    rewrite (model_remove_absent k m.*2) by by apply (Repr_absent _ _ k HR).
    rewrite (delete_absent _ _ Hk). eauto.
Qed.

Lemma shift_model s m :
  Repr s m →
  (shift s).1 = head m.*2 ∧
  ∃ m', Repr (shift s).2 m' ∧ m'.*2 = tail m.*2 ∧
        limit (shift s).2 = limit s.
Proof.
  intros HR. destruct m as [|[r [k v]] m].
  - rewrite (shift_empty _ HR). eauto.
  - destruct (shift_Repr _ _ _ _ _ HR) as (s' & -> & HR' & Hl & _). eauto.
Qed.

Lemma exec_model o s m :
  Repr s m →
  (exec o s).1 = (model_exec (limit s) o m.*2).1 ∧
  ∃ m', Repr (exec o s).2 m' ∧
        m'.*2 = (model_exec (limit s) o m.*2).2 ∧
        limit (exec o s).2 = limit s.
Proof.
  intros HR. destruct o as [k v|k|k|k|k| |]; cbn [exec model_exec fst snd].
  - split; [done|]. by apply set_model.
  - destruct (get_model _ _ k HR) as [-> ?]. done.
  - destruct (Repr_model_find _ _ k HR) as [-> _]. eauto.
  - destruct (Repr_model_find _ _ k HR) as [_ ->]. eauto.
  - destruct (delete_model _ _ k HR) as [-> ?]. done.
  - destruct (shift_model _ _ HR) as [-> ?]. done.
  - split; [done|]. exists []. split; [apply clear_Repr | done].
Qed.

Lemma run_model ops s m :
  Repr s m →
  (run ops s).1 = (model_run (limit s) ops m.*2).1 ∧
  ∃ m', Repr (run ops s).2 m' ∧
        m'.*2 = (model_run (limit s) ops m.*2).2 ∧
        limit (run ops s).2 = limit s.
Proof.
  revert s m. induction ops as [|o ops IH]; intros s m HR.
  - cbn. eauto.
  - cbn [run model_run].
    destruct (exec_model o _ _ HR) as (Ha & m1 & HR1 & Hm1 & Hl1).
    destruct (exec o s) as [a s1], (model_exec (limit s) o m.*2) as [a' l1].
    cbn [fst snd] in *. subst a' l1.
    destruct (IH _ _ HR1) as (Hr & m2 & HR2 & Hm2 & Hl2).
    rewrite Hl1 in *.
    destruct (run ops s1) as [r s2], (model_run (limit s) ops m1.*2) as [r' l2].
    cbn [fst snd] in *. subst. eauto 10.
Qed.

End Model.

Section Recency.

Context {K V : Type} `{Countable K}.

Implicit Types (s : LRUMap K V) (m : list (ref * (K * V))).
Implicit Types (l : list (K * V)) (k : K) (v : V).

Lemma model_find_remove_eq k l : model_find k (model_remove k l) = None.
Proof.
  induction l as [|[k' v] l IH]; [done|]. cbn. case_decide; [done|].
  cbn. by rewrite decide_False.
Qed.

Lemma model_find_remove_ne k k' l :
  k ≠ k' → model_find k (model_remove k' l) = model_find k l.
Proof.
  intros Hne. induction l as [|[k0 v] l IH]; [done|]. cbn.
  destruct (decide (k0 = k')) as [->|?]; cbn.
  - by rewrite decide_False.
  - case_decide; done.
Qed.

Lemma model_after_remove k k' l :
  (model_after k (model_remove k' l) ≤ model_after k l)%nat.
Proof.
  induction l as [|[k0 v] l IH]; [done|]. cbn.
  destruct (decide (k0 = k')) as [->|?]; cbn.
  - case_decide; [|done]. etrans; [apply IH|].
    clear. induction l as [|[k1 v1] l IH]; [done|]. cbn. case_decide; lia.
  - case_decide; [|done]. apply model_remove_length.
Qed.

Lemma model_after_app_present k l1 l2 :
  is_Some (model_find k l1) →
  model_after k (l1 ++ l2) = (model_after k l1 + length l2)%nat.
Proof.
  induction l1 as [|[k' v] l1 IH]; [by intros [? ?]|]. cbn.
  case_decide; [by rewrite length_app | auto].
Qed.

Lemma model_after_app_absent k l1 l2 :
  model_find k l1 = None → model_after k (l1 ++ l2) = model_after k l2.
Proof.
  induction l1 as [|[k' v] l1 IH]; [done|]. cbn. case_decide; [done | auto].
Qed.

(** One call that is not a removal: the key stays, and at most one more
    pair follows it. *)
Lemma model_exec_keeps lim o k l (j : nat) :
  removes o = false →
  is_Some (model_find k l) → (model_after k l ≤ j)%nat →
  Z.of_nat j + 1 < lim →
  is_Some (model_find k (model_exec lim o l).2) ∧
  (model_after k (model_exec lim o l).2 ≤ S j)%nat.
Proof.
  intros Hrm Hk Ha Hj.
  assert (∀ k' v',
            is_Some (model_find k' l) →
            is_Some (model_find k (model_remove k' l ++ [(k', v')])) ∧
            (model_after k (model_remove k' l ++ [(k', v')]) ≤ S j)%nat) as Hmove.
  { intros k' v' Hk'. destruct (decide (k = k')) as [<-|Hne].
    - rewrite model_find_app, model_find_remove_eq. cbn.
      rewrite decide_True by done.
      rewrite model_after_app_absent by apply model_find_remove_eq.
      cbn. rewrite decide_True by done. split; [eauto | cbn; lia].
    - assert (is_Some (model_find k (model_remove k' l))) as Hs
        by by rewrite model_find_remove_ne.
      rewrite model_find_app. destruct Hs as [v0 Hv0]. rewrite Hv0.
      split; [eauto|]. rewrite model_after_app_present by eauto.
      pose proof (model_after_remove k k' l). cbn. lia. }
  destruct o as [k' v'|k'|k'|k'|k'| |]; try done; cbn [model_exec snd].
  - unfold model_set. destruct (model_find k' l) as [v0|] eqn:Hk'.
    { apply Hmove. eauto. }
    assert (is_Some (model_find k (l ++ [(k', v')])) ∧
            model_after k (l ++ [(k', v')]) = S (model_after k l)) as [Hs Hn].
    { rewrite model_find_app, model_after_app_present by done.
      destruct Hk as [v0 ->]. split; [eauto | cbn; lia]. }
    case_decide as Hfull; [|split; [done | lia]].
    destruct l as [|[k0 v0] l]; [by destruct Hk|]. cbn [app tail].
    cbn in Hk, Ha, Hfull, Hs, Hn. destruct (decide (k0 = k)) as [->|Hne].
    + lia.
    + split; [done | lia].
  - unfold model_get. destruct (model_find k' l) as [v0|] eqn:Hk'.
    + apply Hmove. eauto.
    + split; [done | lia].
  - split; [done | lia].
  - split; [done | lia].
Qed.

Lemma model_run_keeps lim ops k l (j : nat) :
  Forall (λ o, removes o = false) ops →
  is_Some (model_find k l) → (model_after k l ≤ j)%nat →
  Z.of_nat j + Z.of_nat (length ops) < lim →
  is_Some (model_find k (model_run lim ops l).2).
Proof.
  revert l j. induction ops as [|o ops IH]; intros l j Hops Hk Ha Hj; [done|].
  apply Forall_cons in Hops as [Ho Hops]. cbn [model_run length] in *.
  destruct (model_exec_keeps lim o k l j Ho Hk Ha ltac:(lia)) as [Hk' Ha'].
  destruct (model_exec lim o l) as [a l1]. cbn [snd] in *.
  specialize (IH l1 (S j) Hops Hk' Ha' ltac:(lia)).
  by destruct (model_run lim ops l1).
Qed.

Lemma model_after_last k v l : model_find k l = None → model_after k (l ++ [(k, v)]) = O.
Proof.
  intros Hk. rewrite model_after_app_absent by done. cbn. by rewrite decide_True.
Qed.

(** After a use of [k] the pair of [k] is last in the model. *)
Lemma model_get_last k l :
  is_Some (model_find k l) →
  is_Some (model_find k (model_get k l)) ∧ model_after k (model_get k l) = O.
Proof.
  intros [v Hv]. unfold model_get. rewrite Hv.
  rewrite model_find_app, model_find_remove_eq. cbn. rewrite decide_True by done.
  split; [eauto|]. apply model_after_last, model_find_remove_eq.
Qed.

Lemma model_set_last lim k v l :
  1 ≤ lim →
  is_Some (model_find k (model_set lim k v l)) ∧
  model_after k (model_set lim k v l) = O.
Proof.
  intros Hlim. unfold model_set. destruct (model_find k l) as [v0|] eqn:Hk.
  - rewrite model_find_app, model_find_remove_eq. cbn. rewrite decide_True by done.
    split; [eauto|]. apply model_after_last, model_find_remove_eq.
  - case_decide as Hfull.
    + destruct l as [|[k0 v0] l]; [cbn in Hfull; lia|]. cbn [app tail].
      cbn in Hk. case_decide; [done|].
      rewrite model_find_app, Hk. cbn. rewrite decide_True by done.
      split; [eauto|]. by apply model_after_last.
    + rewrite model_find_app, Hk. cbn. rewrite decide_True by done.
      split; [eauto|]. by apply model_after_last.
Qed.

Lemma has_model s m k :
  Repr s m → has k s = true ↔ is_Some (model_find k m.*2).
Proof.
  intros HR. destruct (Repr_model_find _ _ k HR) as [_ ->].
  apply bool_decide_eq_true.
Qed.

End Recency.

Section Capacity.

Context {K V : Type} `{Countable K}.

Implicit Types (s : LRUMap K V) (m : list (ref * (K * V))).
Implicit Types (l : list (K * V)) (k : K) (v : V).

Lemma model_exec_length lim o l :
  0 ≤ lim → Z.of_nat (length l) ≤ lim →
  Z.of_nat (length (model_exec lim o l).2) ≤ lim.
Proof.
  intros Hlim Hl.
  assert (∀ k v, is_Some (model_find k l) →
            Z.of_nat (length (model_remove k l ++ [(k, v)])) ≤ lim) as Hmove.
  { intros k v [v0 Hk]. rewrite length_app. cbn.
    assert (length (model_remove k l) < length l)%nat; [|lia].
    clear -Hk. induction l as [|[k' v'] l IH]; [done|]. cbn in *.
    case_decide.
    - pose proof (model_remove_length k l). lia.
    - cbn. specialize (IH Hk). lia. }
  destruct o as [k v|k|k|k|k| |]; cbn [model_exec snd]; try done.
  - unfold model_set. destruct (model_find k l) eqn:Hk; [by apply Hmove|].
    case_decide.
    + destruct l; cbn [app tail length]; [lia|]. rewrite length_app. cbn in *. lia.
    + rewrite length_app. cbn. lia.
  - unfold model_get. destruct (model_find k l) eqn:Hk; [by apply Hmove | done].
  - pose proof (model_remove_length k l). lia.
  - destruct l; cbn in *; lia.
Qed.

Lemma model_run_length lim ops l :
  0 ≤ lim → Z.of_nat (length l) ≤ lim →
  Z.of_nat (length (model_run lim ops l).2) ≤ lim.
Proof.
  intros Hlim. revert l. induction ops as [|o ops IH]; intros l Hl; [done|].
  cbn [model_run]. pose proof (model_exec_length lim o l Hlim Hl) as Hl'.
  destruct (model_exec lim o l) as [a l1]. cbn [snd] in Hl'.
  specialize (IH l1 Hl'). by destruct (model_run lim ops l1).
Qed.

(** Distinct keys set one after the other: the model keeps the last
    [lim] pairs. *)
Lemma model_set_new lim k v (p : list (K * V)) :
  0 ≤ lim → k ∉ p.*1 →
  model_set lim k v (drop (length p - Z.to_nat lim) p) =
  drop (length (p ++ [(k, v)]) - Z.to_nat lim) (p ++ [(k, v)]).
Proof.
  intros Hlim Hk. unfold model_set.
  rewrite model_find_absent.
  2:{ intros Hin. apply Hk. apply list_elem_of_fmap in Hin as (x & -> & Hx).
      apply list_elem_of_fmap. exists x. split; [done|].
      eapply subseteq_drop, Hx. }
  rewrite length_drop, length_app. cbn [length].
  destruct (decide (Z.to_nat lim ≤ length p)%nat) as [Hle|Hgt].
  - rewrite decide_True by lia.
    replace (length p + 1 - Z.to_nat lim)%nat
      with (S (length p - Z.to_nat lim)) by lia.
    rewrite <- drop_app_le by lia.
    generalize (length p - Z.to_nat lim)%nat (p ++ [(k, v)]). clear.
    intros n l. revert n. induction l as [|x l IH]; intros [|n]; cbn; try done.
  - rewrite decide_False by lia.
    replace (length p - Z.to_nat lim)%nat with O by lia.
    replace (length p + 1 - Z.to_nat lim)%nat with O by lia. done.
Qed.

Lemma model_run_sets_distinct lim (p q : list (K * V)) :
  0 ≤ lim → NoDup (p ++ q).*1 →
  (model_run lim ((λ x, op_set x.1 x.2) <$> q)
     (drop (length p - Z.to_nat lim) p)).2 =
  drop (length (p ++ q) - Z.to_nat lim) (p ++ q).
Proof.
  intros Hlim. revert p. induction q as [|[k v] q IH]; intros p Hnd.
  - by rewrite app_nil_r.
  - cbn [fmap list_fmap model_run model_exec fst snd].
    assert (k ∉ p.*1) as Hk.
    { rewrite fmap_app in Hnd. apply NoDup_app in Hnd as (_ & Hd & _).
      intros Hin. apply (Hd k Hin). rewrite fmap_cons. by left. }
    rewrite (model_set_new lim k v p Hlim Hk).
    specialize (IH (p ++ [(k, v)])). rewrite <- app_assoc in IH. cbn in IH.
    specialize (IH Hnd).
    destruct (model_run _ _ _) as [r l']. cbn [snd] in *. done.
Qed.

End Capacity.

Section Traversals.

Context {K V : Type} `{Countable K}.

Implicit Types (s : LRUMap K V) (m : list (ref * (K * V))).
Implicit Types (h : list (Entry K V)) (l : list (K * V)) (k : K) (v : V).

(** ** Iterators *)

Lemma drain_chain {A : Type} (next : option ref → IteratorResult A * option ref)
    (f : K * V → A) h p m (fuel : nat) :
  (∀ r e, h !! r = Some e →
          next (Some r) = (Value A (f (key e, value e)), newer e)) →
  next None = (Done A, None) →
  dseg h p m.*1 None →
  Forall (λ x, kv h x.1 = Some x.2) m →
  (length m < fuel)%nat →
  drain next fuel (hd_or m.*1 None) = Some (f <$> m.*2).
Proof.
  intros Hnext Hdone. revert p fuel.
  induction m as [|[r [k v]] m IH]; intros p fuel Hd Hkv Hf.
  - destruct fuel; [cbn in Hf; lia|]. cbn. by rewrite Hdone.
  - cbn in Hf. destruct fuel as [|fuel]; [lia|].
    rewrite !fmap_cons in *. cbn [fst snd hd_or] in *. destruct Hd as [Hr Hd].
    apply Forall_cons in Hkv as [Hkr Hkv]. cbn [fst snd] in Hkr.
    unfold links, kv in Hr, Hkr. destruct (h !! r) as [e|] eqn:He; [|done].
    cbn in Hr, Hkr. injection Hr as _ Hn. injection Hkr as <- <-.
    cbn [drain]. rewrite (Hnext r e He), Hn.
    rewrite (IH (Some r) fuel); [done..|lia].
Qed.

Lemma Repr_length_store s m : Repr s m → (length m ≤ length (store s))%nat.
Proof.
  intros HR. rewrite <- (length_fmap fst).
  apply NoDup_lt_length; [apply (repr_NoDup _ _ HR)|].
  intros x Hx. by eapply Repr_lt.
Qed.

Lemma head_hd_or (l : list ref) : head l = hd_or l None.
Proof. by destruct l. Qed.

(** ** forEach *)

Lemma forEach_chain {A : Type} (fun_ : V → K → LRUMap K V → A → LRUMap K V * A)
    s p m (fuel : nat) (a : A) :
  (∀ v k s a, (fun_ v k s a).1 = s) →
  dseg (store s) p m.*1 None →
  Forall (λ x, kv (store s) x.1 = Some x.2) m →
  (length m ≤ fuel)%nat →
  forEach_loop fuel fun_ (hd_or m.*1 None) s a =
  Some (s, fold_left (λ a x, (fun_ x.2 x.1 s a).2) m.*2 a).
Proof.
  intros Hfun. revert p fuel a.
  induction m as [|[r [k v]] m IH]; intros p fuel a Hd Hkv Hf.
  - by destruct fuel.
  - cbn in Hf. destruct fuel as [|fuel]; [lia|].
    rewrite !fmap_cons in *. cbn [fst snd hd_or] in *. destruct Hd as [Hr Hd].
    apply Forall_cons in Hkv as [Hkr Hkv]. cbn [fst snd] in Hkr.
    cbn [forEach_loop fold_left].
    pose proof (NEWER_links _ _ _ _ Hr) as Hn.
    unfold kv in Hkr. destruct (store s !! r) as [e|] eqn:He; [|done].
    cbn in Hkr. injection Hkr as <- <-. cbn [fst snd].
    pose proof (Hfun (value e) (key e) s a) as Hs.
    destruct (fun_ (value e) (key e) s a) as [s' a'] eqn:Hfa.
    cbn [fst snd] in *. subst s'. rewrite Hn.
    rewrite (IH (Some r) fuel a'); [done..|lia].
Qed.

(** ** toString *)

Lemma string_app_assoc (a b c : string) : (a +:+ b) +:+ c = a +:+ (b +:+ c).
Proof.
  induction a as [|x a IH]; [done|].
  change (String x ((a +:+ b) +:+ c) = String x (a +:+ (b +:+ c))).
  by rewrite IH.
Qed.

Lemma string_app_nil_r (a : string) : a +:+ "" = a.
Proof.
  induction a as [|x a IH]; [done|].
  change (String x (a +:+ "") = String x a). by rewrite IH.
Qed.

Lemma toString_chain (String_ : K → string) (to_string : V → string)
    h p m (fuel : nat) (acc : string) :
  dseg h p m.*1 None →
  Forall (λ x, kv h x.1 = Some x.2) m →
  (length m ≤ fuel)%nat →
  toString_loop String_ to_string fuel h (hd_or m.*1 None) acc =
  Some (acc +:+
        String.concat " < "
          ((λ x, String_ x.1 +:+ ":" +:+ to_string x.2) <$> m.*2)).
Proof.
  revert p fuel acc.
  induction m as [|[r [k v]] m IH]; intros p fuel acc Hd Hkv Hf.
  - destruct fuel; cbn; by rewrite string_app_nil_r.
  - cbn in Hf. destruct fuel as [|fuel]; [lia|].
    rewrite !fmap_cons in *. cbn [fst snd hd_or] in *. destruct Hd as [Hr Hd].
    apply Forall_cons in Hkv as [Hkr Hkv]. cbn [fst snd] in Hkr.
    unfold links, kv in Hr, Hkr. destruct (h !! r) as [e|] eqn:He; [|done].
    cbn in Hr, Hkr. injection Hr as _ Hn. injection Hkr as <- <-.
    cbn [toString_loop]. rewrite He, Hn.
    rewrite (IH (Some r) fuel); [|done..|lia].
    destruct m as [|[r2 [k2 v2]] m].
    + cbn. by rewrite !string_app_nil_r, !string_app_assoc.
    + cbn [hd_or fmap list_fmap fst snd String.concat].
      by rewrite !string_app_assoc.
Qed.

(** ** delete and shift keep the keys and values of all objects *)

Lemma kv_delete s k x : kv (store (delete_ k s).2) x = kv (store s) x.
Proof.
  unfold delete_. destruct (keymap s !! k) as [r|]; [|done].
  destruct (store s !! r) as [e|]; [|done].
  destruct (NEWER r _) as [n|], (OLDER r _) as [o|]; cbn;
    by rewrite ?kv_alter_older, ?kv_alter_newer.
Qed.

Lemma kv_shift s x : kv (store (shift s).2) x = kv (store s) x.
Proof.
  unfold shift. destruct (oldest s) as [r|]; [|done].
  destruct (NEWER r s) as [n|];
    (match goal with |- context [store ?t !! r] => destruct (store t !! r) end);
    cbn; by rewrite ?kv_alter_newer, ?kv_alter_older.
Qed.

End Traversals.

Section Bulk.

Context {K V : Type} `{Countable K}.

Implicit Types (s : LRUMap K V) (m : list (ref * (K * V))).
Implicit Types (l es : list (K * V)) (k : K) (v : V).

Lemma assign_Returned es s :
  ¬ (0 < limit s < Z.of_nat (length es)) →
  assign es s = Returned (state_of (assign es s)).
Proof. intros Hn. by apply thrown_None, thrown_assign_None. Qed.

(** [assign] builds the cache of the given pairs from any state of the
    object, also one that does not satisfy the invariant. *)
Lemma assign_Repr_any es s :
  NoDup es.*1 → ¬ (0 < limit s < Z.of_nat (length es)) →
  es ≠ [] ∨ oldest s = None →
  ∃ m, m.*2 = es ∧ Repr (state_of (assign es s)) m ∧
       limit (state_of (assign es s)) = limit s.
Proof.
  intros Hnd Hlim Hne. pose proof (assign_Returned es s Hlim) as Ha.
  destruct es as [|p es].
  - destruct Hne as [?|Ho]; [done|]. exists []. split; [done|].
    cbn. split; [|done]. split; cbn; try done.
    + constructor.
    + intros k r. rewrite lookup_empty. split; [done|].
      by intros [? ?%elem_of_nil].
  - by apply (assign_Repr (p :: es)).
Qed.

Lemma constructor_Repr (lim : option Z) es :
  NoDup es.*1 →
  ¬ (0 < default 0 lim < Z.of_nat (length es)) →
  ∃ s m, constructor lim (Some es) = Returned s ∧ m.*2 = es ∧ Repr s m ∧
         limit s = (if decide (default 0 lim < 1) then Z.of_nat (length es)
                    else default 0 lim).
Proof.
  intros Hnd Hlim. unfold constructor.
  replace (match lim with Some l => l | None => 0 end) with (default 0 lim)
    by by destruct lim.
  set (c := mkLRUMap 0 (default 0 lim) None None ∅ []).
  destruct (assign_Repr_any es c Hnd Hlim ltac:(by right)) as (m & Hm & HR & Hl).
  rewrite (assign_Returned es c Hlim). rewrite Hl. cbn [limit c].
  pose proof (repr_size _ _ HR) as Hs.
  assert (length m = length es) as Hlen by by rewrite <- Hm, length_fmap.
  case_decide.
  - eexists _, m. split; [done|]. split; [done|]. split; [|cbn; lia].
    split; try apply HR.
  - eexists _, m. split; [done|]. split; [done|]. split; [done|]. by rewrite Hl.
Qed.

Lemma constructor_holds_entries (lim : option Z) es :
  NoDup es.*1 →
  ¬ (0 < default 0 lim < Z.of_nat (length es)) →
  ∃ s, constructor lim (Some es) = Returned s ∧
       toJSON s = Some es ∧
       size s = Z.of_nat (length es) ∧
       limit s = (if decide (default 0 lim < 1) then Z.of_nat (length es)
                  else default 0 lim) ∧
       ∃ m, Repr s m.
Proof.
  intros Hnd Hlim.
  destruct (constructor_Repr lim es Hnd Hlim) as (s & m & Hc & Hm & HR & Hl).
  exists s. split_and!; [done | | | done | eauto].
  - by rewrite (toJSON_Repr _ _ HR), Hm.
  - by rewrite (repr_size _ _ HR), <- Hm, length_fmap.
Qed.

End Bulk.

(** * Further properties of the methods *)

(** X1.  From a state that satisfies the invariant, any sequence of
    calls of [set], [get], [find], [has], [delete], [shift] and [clear]
    returns what the list model returns, leaves the pairs of the model
    in the cache, oldest first, and keeps the limit and the
    invariant. *)
Theorem calls_refine_list_model :
  ∀ (K V : Type) `{Countable K} (s : LRUMap K V) m (ops : list (op K V)),
    Repr s m →
    toJSON s = Some m.*2 ∧
    (run ops s).1 = (model_run (limit s) ops m.*2).1 ∧
    toJSON (run ops s).2 = Some (model_run (limit s) ops m.*2).2 ∧
    limit (run ops s).2 = limit s ∧
    ∃ m', Repr (run ops s).2 m'.
Proof.
  intros K V ? ? s m ops HR.
  destruct (run_model ops s m HR) as (Ha & m' & HR' & Hm & Hl).
  split_and!; [by apply toJSON_Repr | done | | done | eauto].
  by rewrite (toJSON_Repr _ _ HR'), Hm.
Qed.

Lemma calls_refine_list_model_witness :
  (run [op_get "a"; op_set "d" 4; op_has "b"; op_shift] scenario_abc).1 =
    [ans_value (Some 1); ans_this; ans_bool false; ans_pair (Some ("c", 3))] ∧
  toJSON (run [op_get "a"; op_set "d" 4; op_has "b"; op_shift] scenario_abc).2 =
    Some [("a", 1); ("d", 4)].
Proof.
  destruct (calls_refine_list_model string Z scenario_abc _
              [op_get "a"; op_set "d" 4; op_has "b"; op_shift]
              scenario_abc_Repr) as (_ & Ha & Hj & _).
  split; [exact Ha | exact Hj].
Defined.

(** X2.  From a state that satisfies the invariant and has
    [size <= limit], after any sequence of calls [size] is still at most
    [limit], and it is the number of pairs that [toJSON] gives and the
    number of keys of the index. *)
Theorem size_within_limit_after_calls :
  ∀ (K V : Type) `{Countable K} (s : LRUMap K V) m (ops : list (op K V)),
    Repr s m → size s ≤ limit s →
    size (run ops s).2 ≤ limit (run ops s).2 ∧
    (∃ l, toJSON (run ops s).2 = Some l ∧
          size (run ops s).2 = Z.of_nat (length l)) ∧
    Z.of_nat (base.size (keymap (run ops s).2)) = size (run ops s).2.
Proof.
  intros K V ? ? s m ops HR Hle.
  destruct (run_model ops s m HR) as (_ & m' & HR' & Hm & Hl).
  pose proof (repr_size _ _ HR) as Hs. pose proof (repr_size _ _ HR') as Hs'.
  split_and!.
  - rewrite Hl, Hs', <- (length_fmap snd), Hm.
    apply model_run_length; [lia|]. rewrite length_fmap. lia.
  - exists m'.*2. split; [by apply toJSON_Repr|]. by rewrite length_fmap.
  - by eapply Repr_keymap_size.
Qed.

Lemma size_within_limit_after_calls_witness :
  size (run [op_set "d" 4; op_set "e" 5; op_delete "c"] scenario_abc).2 ≤
  limit (run [op_set "d" 4; op_set "e" 5; op_delete "c"] scenario_abc).2.
Proof.
  refine (proj1 (size_within_limit_after_calls string Z scenario_abc _
                   [op_set "d" 4; op_set "e" 5; op_delete "c"]
                   scenario_abc_Repr _)).
  vm_compute. discriminate.
Defined.

(** X3.  A key that has just been used, by [get] on a present key or by
    [set], is still in the cache after any sequence of fewer than
    [limit] calls of [set], [get], [find] and [has], whatever their
    keys. *)
Theorem recently_used_key_survives :
  ∀ (K V : Type) `{Countable K} (s : LRUMap K V) m (k : K)
    (ops : list (op K V)),
    Repr s m →
    Forall (λ o, removes o = false) ops →
    Z.of_nat (length ops) < limit s →
    (has k s = true → has k (run ops (get k s).2).2 = true) ∧
    (∀ v, has k (run ops (set k v s)).2 = true).
Proof.
  intros K V ? ? s m k ops HR Hops Hlen. split.
  - intros Hk. destruct (get_model _ _ k HR) as (_ & m1 & HR1 & Hm1 & Hl1).
    destruct (run_model ops _ _ HR1) as (_ & m2 & HR2 & Hm2 & _).
    apply (has_model _ _ k HR2). rewrite Hm2, Hm1, Hl1.
    destruct (model_get_last k m.*2) as [Hs Ha]; [by apply (has_model _ _ k HR)|].
    apply (model_run_keeps _ _ _ _ O); [done | done | lia | lia].
  - intros v. destruct (set_model _ _ k v HR) as (m1 & HR1 & Hm1 & Hl1).
    destruct (run_model ops _ _ HR1) as (_ & m2 & HR2 & Hm2 & _).
    apply (has_model _ _ k HR2). rewrite Hm2, Hm1, Hl1.
    destruct (model_set_last (limit s) k v m.*2) as [Hs Ha]; [lia|].
    apply (model_run_keeps _ _ _ _ O); [done | done | lia | lia].
Qed.

Lemma recently_used_key_survives_witness :
  has "a" (run [op_set "d" 4; op_set "e" 5] (get "a" scenario_abc).2).2 = true.
Proof.
  refine (proj1 (recently_used_key_survives string Z scenario_abc _ "a"
                   [op_set "d" 4; op_set "e" 5] scenario_abc_Repr _ _) _).
  - repeat constructor.
  - vm_compute. reflexivity.
  - vm_compute. reflexivity.
Defined.

(** X4.  Setting pairs with pairwise distinct keys, one after the
    other, on a cache constructed with a limit [lim >= 0] and no entries
    leaves the last [lim] of them (all of them if there are fewer), in
    the order in which they were set. *)
Theorem distinct_keys_keep_last_limit :
  ∀ (K V : Type) `{Countable K} (lim : Z) (ps : list (K * V)),
    0 ≤ lim → NoDup ps.*1 →
    ∃ c, constructor (Some lim) None = Returned c ∧
         toJSON (run ((λ p, op_set p.1 p.2) <$> ps) c).2 =
           Some (drop (length ps - Z.to_nat lim) ps).
Proof.
  intros K V ? ? lim ps Hlim Hnd.
  exists (mkLRUMap 0 lim None None ∅ []). split; [done|].
  destruct (run_model ((λ p, op_set p.1 p.2) <$> ps)
              (mkLRUMap 0 lim None None ∅ []) [] (Repr_empty lim []))
    as (_ & m' & HR' & Hm & _).
  rewrite (toJSON_Repr _ _ HR'), Hm. f_equal. cbn [limit].
  exact (model_run_sets_distinct lim [] ps Hlim Hnd).
Qed.

Lemma distinct_keys_keep_last_limit_witness :
  toJSON (run ((λ p, op_set p.1 p.2) <$> five_pairs) (new_cache 3)).2 =
  Some [("angela", 24); ("bob", 48); ("ken", 30)].
Proof.
  destruct (distinct_keys_keep_last_limit string Z 3 five_pairs)
    as (c & Hc & Hj).
  - vm_compute. discriminate.
  - refine (bool_decide_unpack _ _). vm_compute. exact I.
  - injection Hc as <-. exact Hj.
Defined.

(** X5.  In a state that satisfies the invariant, the iterators of
    [keys()], [values()] and [entries()] give the keys, the values and
    the pairs of all entries, oldest first, as [toJSON] lists them, and
    are done after that. *)
Theorem iterators_follow_the_order :
  ∀ (K V : Type) `{Countable K} (s : LRUMap K V) m (fuel : nat),
    Repr s m → (length m < fuel)%nat →
    toJSON s = Some m.*2 ∧
    drain (KeyIterator_next s) fuel (keys s) = Some m.*2.*1 ∧
    drain (ValueIterator_next s) fuel (values s) = Some m.*2.*2 ∧
    drain (EntryIterator_next s) fuel (entries s) = Some m.*2.
Proof.
  intros K V ? ? s m fuel HR Hf. unfold keys, values, entries.
  rewrite (repr_oldest _ _ HR), head_hd_or.
  pose proof (repr_links _ _ HR) as Hd. pose proof (repr_kv _ _ HR) as Hkv.
  split_and!.
  - by apply toJSON_Repr.
  - apply (drain_chain _ fst (store s) None); try done.
    intros r e He. cbn. by rewrite He.
  - apply (drain_chain _ snd (store s) None); try done.
    intros r e He. cbn. by rewrite He.
  - replace (Some m.*2) with (Some (id <$> m.*2)) by by rewrite list_fmap_id.
    apply (drain_chain _ id (store s) None); try done.
    intros r e He. cbn. by rewrite He.
Qed.

Lemma iterators_follow_the_order_witness :
  drain (KeyIterator_next scenario_four) 5 (keys scenario_four) =
    Some ["adam"; "john"; "angela"; "bob"] ∧
  drain (ValueIterator_next scenario_four) 5 (values scenario_four) =
    Some [29; 26; 24; 48].
Proof.
  destruct (iterators_follow_the_order string Z scenario_four _ 5
              scenario_four_Repr) as (_ & Hk & Hv & _).
  - cbn. lia.
  - split; [exact Hk | exact Hv].
Defined.

(** X6.  An iterator that stands on the oldest entry when that entry is
    removed: after [delete] of its key the iterator gives the removed
    key and then the keys that remain in the cache, because [delete]
    leaves the links of the removed entry; after [shift] it gives the
    removed key alone. *)
Theorem iterator_over_removed_entry :
  ∀ (K V : Type) `{Countable K} (s : LRUMap K V) r k v m (fuel : nat),
    Repr s ((r, (k, v)) :: m) → (length m + 1 < fuel)%nat →
    keys s = Some r ∧
    drain (KeyIterator_next (delete_ k s).2) fuel (keys s) =
      Some (k :: m.*2.*1) ∧
    drain (KeyIterator_next (shift s).2) fuel (keys s) = Some [k].
Proof.
  intros K V ? ? s r k v m fuel HR Hf.
  assert (keys s = Some r) as Hkeys by apply (repr_oldest _ _ HR).
  rewrite Hkeys. split; [done|].
  pose proof (Repr_kv _ _ r k v HR ltac:(left)) as Hkv.
  destruct fuel as [|fuel]; [lia|]. cbn [drain KeyIterator_next]. split.
  - destruct (delete_Repr s [] r k v m HR) as (s' & Hdel & HR' & _ & _ & _ & Hl).
    pose proof (kv_delete s k r) as Hkv'. rewrite Hdel in *. cbn [snd] in *.
    pose proof (repr_links _ _ HR) as Hd0. rewrite fmap_cons in Hd0.
    destruct Hd0 as [Hlr _]. cbn [fst] in Hlr.
    rewrite Hlr in Hl. rewrite Hkv in Hkv'.
    unfold links, kv in Hl, Hkv'. destruct (store s' !! r) as [e|]; [|done].
    cbn in Hl, Hkv'. injection Hl as _ ->. injection Hkv' as ->.
    erewrite (drain_chain _ fst (store s') None m); [done | | done | | | lia].
    + intros r' e' He'. cbn. by rewrite He'.
    + apply (repr_links _ _ HR').
    + apply (repr_kv _ _ HR').
  - destruct (shift_Repr s r k v m HR) as (s' & Hsh & _ & _ & _ & _ & Hl).
    pose proof (kv_shift s r) as Hkv'. rewrite Hsh in *. cbn [snd] in *.
    rewrite Hkv in Hkv'.
    unfold links, kv in Hl, Hkv'. destruct (store s' !! r) as [e|]; [|done].
    cbn in Hl, Hkv'. injection Hl as _ ->. injection Hkv' as ->.
    destruct fuel; [lia|]. done.
Qed.

Lemma iterator_over_removed_entry_witness :
  drain (KeyIterator_next (delete_ "a" scenario_abc).2) 4 (keys scenario_abc) =
    Some ["a"; "b"; "c"] ∧
  drain (KeyIterator_next (shift scenario_abc).2) 4 (keys scenario_abc) =
    Some ["a"].
Proof.
  destruct (iterator_over_removed_entry string Z scenario_abc _ _ _ _ 4
              scenario_abc_Repr) as (_ & Hd & Hs).
  - cbn. lia.
  - split; [exact Hd | exact Hs].
Defined.

(** X7.  With a callback that leaves the map as it is, [forEach] calls
    it once for each entry, oldest first, with the value and the key of
    the entry, and the map is unchanged. *)
Theorem forEach_visits_in_order :
  ∀ (K V A : Type) `{Countable K} (s : LRUMap K V) m (fuel : nat)
    (fun_ : V → K → LRUMap K V → A → LRUMap K V * A) (a : A),
    Repr s m → (length m ≤ fuel)%nat →
    (∀ v k s a, (fun_ v k s a).1 = s) →
    forEach fuel fun_ s a =
    Some (s, fold_left (λ a x, (fun_ x.2 x.1 s a).2) m.*2 a).
Proof.
  intros K V A ? ? s m fuel fun_ a HR Hf Hfun. unfold forEach.
  rewrite (repr_oldest _ _ HR), head_hd_or.
  apply (forEach_chain _ s None); [done | | | done].
  - apply (repr_links _ _ HR).
  - apply (repr_kv _ _ HR).
Qed.

Lemma forEach_visits_in_order_witness :
  forEach 4 (λ v k s a, (s, a ++ [(k, v)])) scenario_four [] =
  Some (scenario_four, four_pairs).
Proof.
  refine (forEach_visits_in_order string Z _ scenario_four _ 4
            (λ v k s a, (s, a ++ [(k, v)])) [] scenario_four_Repr _ _).
  - cbn. lia.
  - reflexivity.
Defined.

(** X8.  A callback that calls [get] on the key it is given ends the
    traversal: the entry it was called for is then the newest one and
    has no newer entry, so on a cache that is not empty [forEach] makes
    one call, for the oldest entry. *)
Theorem forEach_with_get_stops_after_first :
  ∀ (K V : Type) `{Countable K} (s : LRUMap K V) r k v m (fuel : nat),
    Repr s ((r, (k, v)) :: m) → (1 ≤ fuel)%nat →
    forEach fuel (λ v k s a, ((get k s).2, a ++ [k])) s [] =
    Some ((get k s).2, [k]).
Proof.
  intros K V ? ? s r k v m fuel HR Hf. unfold forEach.
  rewrite (repr_oldest _ _ HR). cbn [fmap list_fmap head fst].
  destruct fuel as [|fuel]; [lia|]. cbn [forEach_loop].
  destruct (Repr_lookup _ _ r k v HR) as (e & He & Hk & Hv); [left|].
  rewrite He, Hk.
  destruct (get_Repr s [] r k v m HR) as (_ & HR' & _).
  cbn [app] in HR'. pose proof (repr_links _ _ HR') as Hd.
  rewrite fmap_app in Hd. apply dseg_app in Hd as [_ Hd].
  destruct Hd as [Hl _]. cbn [fst hd_or] in Hl.
  rewrite (NEWER_links _ _ _ _ Hl). cbn. by destruct fuel.
Qed.

Lemma forEach_with_get_stops_after_first_witness :
  forEach 4 (λ v k s a, ((get k s).2, a ++ [k])) scenario_four [] =
  Some ((get "adam" scenario_four).2, ["adam"]).
Proof.
  refine (forEach_with_get_stops_after_first string Z scenario_four _ _ _ _ 4
            scenario_four_Repr _).
  lia.
Defined.

(** X9.  [toString] gives the entries oldest first, each as the key, a
    colon and the value, with the separator [" < "] between two entries
    and nothing after the last one. *)
Theorem toString_format :
  ∀ (K V : Type) `{Countable K} (String_ : K → string)
    (to_string : V → string) (s : LRUMap K V) m,
    Repr s m →
    toString String_ to_string s =
    Some (String.concat " < "
            ((λ x, String_ x.1 +:+ ":" +:+ to_string x.2) <$> m.*2)).
Proof.
  intros K V ? ? String_ to_string s m HR. unfold toString.
  rewrite (repr_oldest _ _ HR), head_hd_or.
  rewrite (toString_chain _ _ (store s) None m); [done | | |].
  - apply (repr_links _ _ HR).
  - apply (repr_kv _ _ HR).
  - by apply Repr_length_store.
Qed.

Lemma toString_format_witness :
  toString id pretty scenario_four =
  Some "adam:29 < john:26 < angela:24 < bob:48".
Proof.
  exact (toString_format string Z id pretty scenario_four _ scenario_four_Repr).
Defined.

(** X10.  The constructor with entries whose keys are pairwise distinct
    and whose number does not exceed a positive limit returns a cache
    that holds these entries in their order, with [size] their number;
    the limit is the one given if it is at least 1, and the number of
    entries if it is omitted or less than 1. *)
Theorem constructor_with_entries :
  ∀ (K V : Type) `{Countable K} (lim : option Z) (es : list (K * V)),
    NoDup es.*1 →
    ¬ (0 < default 0 lim < Z.of_nat (length es)) →
    ∃ s, constructor lim (Some es) = Returned s ∧
         toJSON s = Some es ∧
         size s = Z.of_nat (length es) ∧
         limit s = (if decide (default 0 lim < 1) then Z.of_nat (length es)
                    else default 0 lim) ∧
         ∃ m, Repr s m.
Proof.
  intros K V ? ? lim es Hnd Hlim. by apply constructor_holds_entries.
Qed.

Lemma constructor_with_entries_witness :
  ∃ s, constructor None (Some four_pairs) = Returned s ∧
       toJSON s = Some four_pairs ∧ size s = 4 ∧ limit s = 4.
Proof.
  destruct (constructor_with_entries string Z None four_pairs)
    as (s & Hc & Hj & Hs & Hl & _).
  - refine (bool_decide_unpack _ _). vm_compute. exact I.
  - vm_compute. intros [Hlt _]. discriminate Hlt.
  - exists s. split; [exact Hc|]. split; [exact Hj|]. split; [exact Hs | exact Hl].
Defined.

(** X11.  Round trip: constructing a cache with the limit of a cache
    that satisfies the invariant and has [size <= limit], and with the
    pairs that [toJSON] gives for it, returns a cache with the same
    pairs in the same order, the same size and the same limit. *)
Theorem toJSON_constructor_round_trip :
  ∀ (K V : Type) `{Countable K} (s : LRUMap K V) m (l : list (K * V)),
    Repr s m → size s ≤ limit s → toJSON s = Some l →
    ∃ s', constructor (Some (limit s)) (Some l) = Returned s' ∧
          toJSON s' = Some l ∧ size s' = size s ∧ limit s' = limit s.
Proof.
  intros K V ? ? s m l HR Hle Hj.
  rewrite (toJSON_Repr _ _ HR) in Hj. injection Hj as <-.
  pose proof (repr_size _ _ HR) as Hs.
  destruct (constructor_holds_entries (Some (limit s)) m.*2)
    as (s' & Hc & Hj' & Hs' & Hl' & _).
  - by eapply Repr_NoDup_keys.
  - cbn. rewrite length_fmap. lia.
  - exists s'. rewrite length_fmap in Hs', Hl'. cbn [default] in Hl'.
    split_and!; [done | done | lia |]. rewrite Hl'. unfold id in *.
    case_decide; unfold id in *; lia.
Qed.

Lemma toJSON_constructor_round_trip_witness :
  ∃ s', constructor (Some (limit scenario_abc_get_a))
          (Some [("b", 2); ("c", 3); ("a", 1)]) = Returned s' ∧
        toJSON s' = Some [("b", 2); ("c", 3); ("a", 1)].
Proof.
  destruct (toJSON_constructor_round_trip string Z scenario_abc_get_a _
              [("b", 2); ("c", 3); ("a", 1)] scenario_abc_get_a_Repr)
    as (s' & Hc & Hj & _).
  - vm_compute. discriminate.
  - vm_compute. reflexivity.
  - exists s'. split; [exact Hc | exact Hj].
Defined.

(** X12.  [assign] with at least one pair, pairwise distinct keys and
    no more pairs than a positive limit allows returns normally from
    any state of the object, also one that breaks the invariant such as
    the state a failed [assign] leaves: afterwards the cache holds the
    given pairs in their order, [size] is their number, the limit is
    unchanged and the invariant holds. *)
Theorem assign_replaces_any_state :
  ∀ (K V : Type) `{Countable K} (s : LRUMap K V) (es : list (K * V)),
    es ≠ [] → NoDup es.*1 →
    ¬ (0 < limit s < Z.of_nat (length es)) →
    ∃ s', assign es s = Returned s' ∧
          toJSON s' = Some es ∧
          size s' = Z.of_nat (length es) ∧
          limit s' = limit s ∧
          ∃ m, Repr s' m.
Proof.
  intros K V ? ? s es Hne Hnd Hlim.
  destruct (assign_Repr_any es s Hnd Hlim ltac:(by left)) as (m & Hm & HR & Hl).
  exists (state_of (assign es s)).
  split_and!; [by apply assign_Returned | | | done | eauto].
  - by rewrite (toJSON_Repr _ _ HR), Hm.
  - by rewrite (repr_size _ _ HR), <- Hm, length_fmap.
Qed.

Lemma assign_replaces_any_state_witness :
  thrown (assign five_pairs scenario_four) = Some "overflow" ∧
  ∃ s', assign [("adam", 29); ("john", 26); ("angela", 24)]
          (state_of (assign five_pairs scenario_four)) = Returned s' ∧
        size s' = 3 ∧ limit s' = 4.
Proof.
  split; [exact five_pairs_overflow|].
  destruct (assign_replaces_any_state string Z
              (state_of (assign five_pairs scenario_four))
              [("adam", 29); ("john", 26); ("angela", 24)])
    as (s' & Ha & _ & Hs & Hl & _).
  - discriminate.
  - refine (bool_decide_unpack _ _). vm_compute. exact I.
  - vm_compute. intros [_ Hlt]. discriminate Hlt.
  - exists s'. split; [exact Ha|]. split; [exact Hs | exact Hl].
Defined.

Section Repeated.

Context {K V : Type} `{Countable K}.

Implicit Types (s : LRUMap K V) (m : list (ref * (K * V))).
Implicit Types (es it : list (K * V)) (k : K) (v : V).

(** The chain that the loop of [assign] builds, whatever the keys. *)
Lemma assign_loop_chain it s entry m lim entry' :
  dseg (store s) None m.*1 None →
  Forall (λ x, kv (store s) x.1 = Some x.2) m →
  NoDup m.*1 → entry = last m.*1 →
  (m ≠ [] → oldest s = head m.*1) →
  (assign_loop it entry lim s).1 = Some entry' →
  ∃ m', m'.*2 = m.*2 ++ it ∧
        dseg (store (assign_loop it entry lim s).2) None m'.*1 None ∧
        Forall (λ x, kv (store (assign_loop it entry lim s).2) x.1 = Some x.2) m' ∧
        NoDup m'.*1 ∧ entry' = last m'.*1 ∧
        (m' ≠ [] → oldest (assign_loop it entry lim s).2 = head m'.*1).
Proof.
  revert s entry m lim.
  induction it as [|[k v] it IH]; intros s entry m lim Hd Hkv Hnd He Ho Hr.
  - cbn in *. injection Hr as <-. exists m. by rewrite app_nil_r.
  - cbn [assign_loop new_Entry] in *. set (e := length (store s)) in *.
    assert (e ∉ m.*1) as Hem.
    { intros Hin. pose proof (dseg_lt _ _ _ _ _ Hd Hin). unfold e in *. lia. }
    destruct (jsnum_is_zero lim); [done|].
    match type of Hr with
    | (assign_loop _ _ _ ?s1).1 = _ =>
        destruct (IH s1 (Some e) (m ++ [(e, (k, v))]) (jsnum_dec lim))
          as (m' & Hm' & ?); [| | | | |exact Hr|]
    end.
    + rewrite fmap_app. cbn [fmap list_fmap fst]. apply dseg_app.
      destruct entry as [p|]; fields.
      * symmetry in He. pose proof He as [l0 Hl0]%last_Some.
        assert (p ≠ e) as Hpe. { intros ->. apply Hem. rewrite Hl0. set_solver. }
        split.
        -- cbn [hd_or]. apply dseg_alter_notin; [done|].
           apply dseg_set_last with (n := None); [done..|].
           by apply dseg_snoc_store.
        -- rewrite (last_or_last _ _ _ He). cbn. split; [|done]. unfold links.
           rewrite list_lookup_alter_eq, list_lookup_alter_ne by done.
           unfold e. by rewrite list_lookup_middle.
      * symmetry in He. apply last_None in He. rewrite He. cbn. split; [done|].
        split; [|done]. unfold links, e. by rewrite list_lookup_middle.
    + apply Forall_app. split.
      * destruct entry; fields;
          [apply Forall_kv_alter_older, Forall_kv_alter_newer|];
          by apply Forall_kv_snoc_store.
      * apply Forall_singleton. cbn [fst snd].
        destruct entry; fields;
          rewrite ?kv_alter_older, ?kv_alter_newer, kv_snoc;
          by rewrite decide_True.
    + rewrite fmap_app. cbn. apply NoDup_app. split; [done|]. split.
      * by intros x Hx ->%list_elem_of_singleton.
      * apply NoDup_singleton.
    + rewrite fmap_app. cbn. by rewrite last_snoc.
    + intros _. rewrite fmap_app, head_app. destruct entry as [p|]; fields.
      * destruct m as [|x m]; [done|]. by rewrite Ho.
      * symmetry in He. apply last_None in He. by rewrite He.
    + exists m'. split; [|done]. by rewrite Hm', fmap_app, <- app_assoc.
Qed.

Lemma list_to_set_remove_dups (l : list K) :
  list_to_set (remove_dups l) =@{gset K} list_to_set l.
Proof. apply set_eq. intros x. by rewrite !elem_of_list_to_set, elem_of_remove_dups. Qed.

Lemma assign_any_keys es s :
  es ≠ [] → ¬ (0 < limit s < Z.of_nat (length es)) →
  assign es s = Returned (state_of (assign es s)) ∧
  toJSON (state_of (assign es s)) = Some es ∧
  size (state_of (assign es s)) = Z.of_nat (distinct_keys es) ∧
  (∀ k, has k (state_of (assign es s)) = true ↔ k ∈ es.*1) ∧
  limit (state_of (assign es s)) = limit s.
Proof.
  intros Hne Hlim. split; [by apply assign_Returned|].
  pose proof (assign_Returned es s Hlim) as Ha. rewrite assign_unfold in Ha |- *.
  set (lim := or_MAX_VALUE (limit s)) in *. set (s0 := with_keymap ∅ s) in *.
  destruct (assign_loop_fields es None lim s0) as (_ & Hl & _ & _ & Hdom & _).
  assert (consumed lim es = length es) as Hcons.
  { unfold consumed, lim, or_MAX_VALUE. destruct (Z.eqb_spec (limit s) 0); [done|].
    rewrite decide_False; [done | lia]. }
  rewrite Hcons, take_ge in Hdom by done.
  cbn [keymap s0 with_keymap] in Hdom. rewrite dom_empty_L, (left_id_L (∅ : gset K) (∪)) in Hdom.
  destruct (assign_loop es None lim s0) as [[entry'|] s'] eqn:Hloop; [|done].
  destruct (assign_loop_chain es s0 None [] lim entry') as (m' & Hm' & Hd & Hkv & Hnd & _ & Ho);
    [done | done | constructor | done | done | by rewrite Hloop |].
  rewrite Hloop in *. cbn [fst snd state_of] in *.
  assert (m' ≠ []) as Hm'ne by (intros ->; by destruct es).
  split_and!.
  - unfold toJSON. fields. change ([].*2 ++ es) with es in Hm'.
    rewrite (Ho Hm'ne), head_hd_or, <- Hm'.
    apply (walk_dseg _ None); [done | done |].
    rewrite <- (length_fmap fst). apply NoDup_lt_length; [done|].
    intros x Hx. by eapply dseg_lt.
  - fields. f_equal. unfold distinct_keys.
    rewrite <- (size_dom (D := gset K)), Hdom, <- list_to_set_remove_dups.
    apply size_list_to_set, NoDup_remove_dups.
  - intros k. rewrite has_keymap. fields.
    by rewrite <- elem_of_dom, Hdom, elem_of_list_to_set.
  - done.
Qed.

End Repeated.

(** X13.  [assign] does not merge pairs with the same key: given at
    least one pair and no more pairs than a positive limit allows, it
    returns with all pairs chained in their order, so [toJSON] gives
    all of them, while the index has one entry for each key and [size]
    is the number of distinct keys. *)
Theorem assign_keeps_repeated_keys :
  ∀ (K V : Type) `{Countable K} (s : LRUMap K V) (es : list (K * V)),
    es ≠ [] → ¬ (0 < limit s < Z.of_nat (length es)) →
    ∃ s', assign es s = Returned s' ∧
          toJSON s' = Some es ∧
          size s' = Z.of_nat (distinct_keys es) ∧
          (∀ k, has k s' = true ↔ k ∈ es.*1) ∧
          limit s' = limit s.
Proof.
  intros K V ? ? s es Hne Hlim. exists (state_of (assign es s)).
  by apply assign_any_keys.
Qed.

Lemma assign_keeps_repeated_keys_witness :
  ∃ s', assign [("a", 1); ("b", 2); ("a", 3)] (new_cache 4) = Returned s' ∧
        toJSON s' = Some [("a", 1); ("b", 2); ("a", 3)] ∧
        size s' = 2.
Proof.
  destruct (assign_keeps_repeated_keys string Z (new_cache 4)
              [("a", 1); ("b", 2); ("a", 3)]) as (s' & Ha & Hj & Hs & _).
  - discriminate.
  - vm_compute. intros [_ Hlt]. discriminate Hlt.
  - exists s'. split; [exact Ha|]. split; [exact Hj | exact Hs].
Defined.
